(** * loopback-component-fixtures: a shallow embedding of [index.js]

    The component keeps five module-level variables ([models],
    [fixtureNames], [fixturePath], [cachedFixtures], [config]) and the
    mutable object [defaults].  Every function of [index.js] is embedded
    as a computation over that module state which also records what it
    does to the outside world (directory listings, [require] calls,
    bulk-create and automigrate requests, invocations of the caller's
    callback) in a trace, and which may end in a JavaScript exception.

    Host operations ([create], [automigrate]) are oracles of the host
    application, and they are taken to have called back by the time they
    return.  A LoopBack host calls back on a later tick instead: the same
    requests are then issued in the same order and every join receives
    the same completions, but after the operation that issued them has
    returned, and in the order in which the host completes them.  The
    properties proved below therefore bear on the requests an operation
    issues and on what the caller's callback is told; none of them
    depends on the order in which completions reach a join, nor on a
    callback running before the operation that registered it returns.

    [String.prototype.toLowerCase], [fs.readdirSync] and the file lookup
    behind [require] belong to the runtime and are parameters of the
    embedding (the record [World]); the caches Node keeps behind
    [require] are part of the state. *)

From Stdlib Require Import Ascii String List Bool.
From stdpp Require Import base option list strings gmap.

Local Open Scope string_scope.
Local Open Scope list_scope.
Set Warnings "-register-all".

(** ** JavaScript strings *)

Module JsString.

(** [s.endsWith(suf)], which is what the unflagged regular expression
    [/\.json$/] tests when [suf] is [".json"]. *)
Fixpoint ends_with (suf s : string) : bool :=
  if String.eqb s suf then true
  else match s with
       | EmptyString => false
       | String _ s' => ends_with suf s'
       end.

(** [s.replace(pat, rep)] with a string pattern: only the first
    occurrence of [pat], scanning from the left, is replaced. *)
Fixpoint replace (pat rep s : string) : string :=
  if String.prefix pat s
  then rep +:+ String.substring (String.length pat)
                 (String.length s - String.length pat) s
  else match s with
       | EmptyString => EmptyString
       | String c s' => String c (replace pat rep s')
       end.

(** [s.split(sep)] for a one-character separator. *)
Fixpoint split_aux (sep : ascii) (cur : string) (s : string) : list string :=
  match s with
  | EmptyString => [String.rev cur]
  | String c s' =>
      if Ascii.eqb c sep then String.rev cur :: split_aux sep EmptyString s'
      else split_aux sep (String c cur) s'
  end.

Definition split (sep : ascii) (s : string) : list string :=
  split_aux sep EmptyString s.

(** Lower-casing of the letters [A] to [Z].  On a string of ASCII
    characters this is [s.toLowerCase()]; on other strings it is not, and
    the embedding never uses it for them: [toLowerCase] itself is an
    operation of the runtime (see [World] below), and this function is
    what the sample host, whose names are ASCII, puts in its place. *)
Definition lower_ascii (c : ascii) : ascii :=
  let n := nat_of_ascii c in
  if Nat.leb 65 n && Nat.leb n 90 then ascii_of_nat (n + 32) else c.

Fixpoint ascii_lower (s : string) : string :=
  match s with
  | EmptyString => EmptyString
  | String c s' => String (lower_ascii c) (ascii_lower s')
  end.

(** Node's test for a request that names a directory: it ends in [/],
    or its last segment is [.] or [..]. *)
Definition trailing_slash (s : string) : bool :=
  ends_with "/" s || ends_with "/." s || ends_with "/.." s
  || String.eqb s "." || String.eqb s "..".

(** Removal of a trailing [suf]: the reading of "extension stripped"
    that keeps everything before the final suffix. *)
Definition strip_suffix (suf s : string) : string :=
  if ends_with suf s
  then String.substring 0 (String.length s - String.length suf) s
  else s.

End JsString.

(** ** JavaScript values, errors and exceptions *)

(** The values a fixture module can export.  [require] of a [.json] file
    never yields [VUndefined]; a property read on a missing key does.
    [VNative] stands for a function or object of the runtime itself, such
    as [Object.prototype.toString]. *)
Inductive JsVal : Type :=
| VUndefined
| VNull
| VBool (b : bool)
| VNum (n : Z)
| VStr (s : string)
| VArr (items : list JsVal)
| VObj (props : list (string * JsVal))
| VNative (name : string).

(** JavaScript truthiness, the test behind [if (!x)]. *)
Definition truthy (v : JsVal) : bool :=
  match v with
  | VUndefined | VNull => false
  | VBool b => b
  | VNum n => negb (Z.eqb n 0)
  | VStr s => negb (String.eqb s "")
  | VArr _ | VObj _ | VNative _ => true
  end.


(** The (truthy) error value a host operation hands to its callback. *)
Inductive JsError : Type :=
| MkError (message : string).

(** What a [throw] carries out of the component. *)
Inductive Exn : Type :=
| TypeError (message : string)
| FsError (path : string)
| ModuleNotFound (path : string)
| SyntaxError (path : string)
| StartupError (message : string).

(** ** The host application and the process *)

(** A model of the registry: the outcome its bulk-create reports for a
    given payload ([None] is a null error). *)
Record Model : Type := { create : JsVal -> option JsError }.

(** A data source: the outcome of [automigrate], for one model name or,
    with [None], for the data source's entire model set. *)
Record DataSource : Type := { automigrate : option string -> option JsError }.

Record Settings : Type := { env : option string }.

(** [app.datasources] is an object whose keys are enumerated in insertion
    order by [Object.keys]: an association list. *)
Record App : Type := {
  app_models : gmap string Model;
  app_settings : option Settings;
  app_datasources : list (string * DataSource)
}.

(** The process around the component: application root, [path.join],
    [process.env.NODE_ENV], [String.prototype.toLowerCase], and the file
    system as [fs.readdirSync] and [require] find it: the entries of each
    readable directory; the file Node's lookup ([Module._findPath]: the
    exact name, the extensions, a directory's package or index file)
    arrives at for a request, [None] when it arrives at none; and for
    each file the value loading it exports ([None] for a file whose
    content does not parse). *)
Record World : Type := {
  appRoot : string;
  path_join : string -> string -> string;
  NODE_ENV : option string;
  toLowerCase : string -> string;
  dirs : gmap string (list string);
  findPath : string -> option string;
  files : gmap string (option JsVal)
}.

(** What the component does to the outside. *)
Inductive Event : Type :=
| EvReaddir (path : string)
| EvRequire (path : string) (fixtureName : string)
| EvCreate (model : string) (data : JsVal)
| EvAutomigrate (dataSource : string) (model : option string)
| EvCallback (err : option JsError) (result : option string).

(** ** Configuration *)

Inductive Environments : Type :=
| EnvScalar (name : string)
| EnvList (names : list string).

Record Config : Type := {
  loadFixturesOnStartup : bool;
  errorOnSetupFailure : bool;
  environments : Environments;
  fixturesPath : string
}.

(** The [options] argument: each recognised key is present or not. *)
Record Options : Type := {
  o_loadFixturesOnStartup : option bool;
  o_errorOnSetupFailure : option bool;
  o_environments : option Environments;
  o_fixturesPath : option string
}.

(** The literal the module binds to [defaults] when it is loaded. *)
Definition initial_defaults : Config := {|
  loadFixturesOnStartup := false;
  errorOnSetupFailure := false;
  environments := EnvScalar "test";
  fixturesPath := "/server/test-fixtures/"
|}.

(** [merge(target, options)] of the [merge] package with an object as
    first argument: every key of [options] is written onto [target],
    which is returned. *)
Definition merge (target : Config) (options : Options) : Config := {|
  loadFixturesOnStartup :=
    default (loadFixturesOnStartup target) (o_loadFixturesOnStartup options);
  errorOnSetupFailure :=
    default (errorOnSetupFailure target) (o_errorOnSetupFailure options);
  environments := default (environments target) (o_environments options);
  fixturesPath := default (fixturesPath target) (o_fixturesPath options)
|}.

(** ** Module state *)

(** The five [let] variables ([None] is [undefined]) and the object bound
    to [defaults].  After [init], [config] and [defaults] are one object;
    as nothing but [merge] ever writes to it, holding its value in both
    fields is exact.

    With them, the two caches Node keeps behind [require] for the whole
    process: the file each request was resolved to ([Module._pathCache])
    and the exports of each file loaded ([require.cache]). *)
Record State : Type := {
  models : option (gmap string Model);
  fixtureNames : option (list string);
  fixturePath : option string;
  cachedFixtures : option (gmap string JsVal);
  config : option Config;
  defaults : Config;
  pathCache : gmap string string;
  moduleCache : gmap string JsVal
}.

Definition initial_state : State := {|
  models := None;
  fixtureNames := None;
  fixturePath := None;
  cachedFixtures := None;
  config := None;
  defaults := initial_defaults;
  pathCache := ∅;
  moduleCache := ∅
|}.

Definition set_models (v : option (gmap string Model)) (s : State) : State :=
  {| models := v; fixtureNames := fixtureNames s; fixturePath := fixturePath s;
     cachedFixtures := cachedFixtures s; config := config s;
     defaults := defaults s;
     pathCache := pathCache s; moduleCache := moduleCache s |}.

Definition set_fixtureNames (v : option (list string)) (s : State) : State :=
  {| models := models s; fixtureNames := v; fixturePath := fixturePath s;
     cachedFixtures := cachedFixtures s; config := config s;
     defaults := defaults s;
     pathCache := pathCache s; moduleCache := moduleCache s |}.

Definition set_fixturePath (v : option string) (s : State) : State :=
  {| models := models s; fixtureNames := fixtureNames s; fixturePath := v;
     cachedFixtures := cachedFixtures s; config := config s;
     defaults := defaults s;
     pathCache := pathCache s; moduleCache := moduleCache s |}.

Definition set_cachedFixtures (v : option (gmap string JsVal)) (s : State) : State :=
  {| models := models s; fixtureNames := fixtureNames s;
     fixturePath := fixturePath s; cachedFixtures := v; config := config s;
     defaults := defaults s;
     pathCache := pathCache s; moduleCache := moduleCache s |}.

(** [config = merge(defaults, options)]: the merged object is both. *)
Definition set_config (v : Config) (s : State) : State :=
  {| models := models s; fixtureNames := fixtureNames s;
     fixturePath := fixturePath s; cachedFixtures := cachedFixtures s;
     config := Some v; defaults := v;
     pathCache := pathCache s; moduleCache := moduleCache s |}.

Definition set_pathCache (v : gmap string string) (s : State) : State :=
  {| models := models s; fixtureNames := fixtureNames s;
     fixturePath := fixturePath s; cachedFixtures := cachedFixtures s;
     config := config s; defaults := defaults s;
     pathCache := v; moduleCache := moduleCache s |}.

Definition set_moduleCache (v : gmap string JsVal) (s : State) : State :=
  {| models := models s; fixtureNames := fixtureNames s;
     fixturePath := fixturePath s; cachedFixtures := cachedFixtures s;
     config := config s; defaults := defaults s;
     pathCache := pathCache s; moduleCache := v |}.

(** ** Computations: state, trace and exceptions *)

Record Res (A : Type) : Type := mkRes {
  r_state : State;
  r_trace : list Event;
  r_out : Exn + A
}.
Arguments mkRes {A} _ _ _.
Arguments r_state {A} _.
Arguments r_trace {A} _.
Arguments r_out {A} _.

Definition M (A : Type) : Type := State -> Res A.

(** A [throw] unwinds the computation; what was written to the module
    state and what was done to the outside before it stays. *)
#[global] Instance M_ret : MRet M := fun A a s => mkRes s [] (inr a).

#[global] Instance M_bind : MBind M := fun A B k m s =>
  let r := m s in
  match r_out r with
  | inl e => mkRes (r_state r) (r_trace r) (inl e)
  | inr a =>
      let r' := k a (r_state r) in
      mkRes (r_state r') (r_trace r ++ r_trace r') (r_out r')
  end.

Definition throw {A : Type} (e : Exn) : M A := fun s => mkRes s [] (inl e).
Definition emit (ev : Event) : M unit := fun s => mkRes s [ev] (inr tt).
Definition get : M State := fun s => mkRes s [] (inr s).
Definition modify (f : State -> State) : M unit := fun s => mkRes (f s) [] (inr tt).

(** ** Library calls *)

(** [Module._resolveFilename] for an absolute request: the file the
    request was resolved to before, else the file the lookup arrives at
    now, which is remembered. *)
Definition resolveFilename (w : World) (request : string) : M string :=
  s ← get;
  match pathCache s !! request with
  | Some filename => mret filename
  | None =>
      match findPath w request with
      | None => throw (ModuleNotFound request)
      | Some filename =>
          modify (set_pathCache (<[request := filename]> (pathCache s)));;
          mret filename
      end
  end.

(** [Module._load] of a resolved file: the exports held in
    [require.cache] when the file was loaded before, whatever the file
    holds by now; else the file is read, and what it exports is kept. *)
Definition loadModule (w : World) (filename : string) : M JsVal :=
  s ← get;
  match moduleCache s !! filename with
  | Some exports => mret exports
  | None =>
      match files w !! filename with
      | None => throw (FsError filename)
      | Some None => throw (SyntaxError filename)
      | Some (Some exports) =>
          modify (set_moduleCache (<[filename := exports]> (moduleCache s)));;
          mret exports
      end
  end.

(** [require(request)]. *)
Definition require (w : World) (request : string) : M JsVal :=
  filename ← resolveFilename w request; loadModule w filename.

(** What [require(request)] returns in a given state of the process,
    [None] when it throws. *)
Definition resolve (w : World) (s : State) (request : string) : option JsVal :=
  match
    match pathCache s !! request with
    | Some filename => Some filename
    | None => findPath w request
    end
  with
  | None => None
  | Some filename =>
      match moduleCache s !! filename with
      | Some exports => Some exports
      | None => mjoin (files w !! filename)
      end
  end.

(** What an operation that takes a completion callback does: the error it
    passes to the callback, and the work it still performs once the
    callback has returned. *)
Abbreviation Completion := (option JsError * M unit)%type.

Definition completes (err : option JsError) : M Completion :=
  mret (err, mret tt).

(** [async.each] once its callback has fired: the remaining items are
    still started, and what they report is dropped. *)
Fixpoint each_rest {A : Type} (iteratee : A -> M Completion) (coll : list A)
  : M unit :=
  match coll with
  | [] => mret tt
  | x :: xs => c ← iteratee x; c.2;; each_rest iteratee xs
  end.

(** [async.each] up to the call of its callback: with an error as soon
    as an item reports one, with null once the last item has reported
    success.  Every item is started, in order, whatever the earlier ones
    report; with completions that arrive in the order the items were
    started, the error passed on is that of the first item to fail. *)
Fixpoint each_run {A : Type} (iteratee : A -> M Completion) (coll : list A)
  : M Completion :=
  match coll with
  | [] => mret (None, mret tt)
  | x :: xs =>
      c ← iteratee x;
      match c.1 with
      | Some err => mret (Some err, (c.2;; each_rest iteratee xs))
      | None =>
          match xs with
          | [] => mret (None, c.2)
          | _ :: _ => c.2;; each_run iteratee xs
          end
      end
  end.

(** [async.each(coll, iteratee, callback)]; an undefined collection is an
    empty one. *)
Definition async_each {A : Type} (coll : option (list A))
    (iteratee : A -> M Completion) (callback : option JsError -> M unit)
  : M unit :=
  c ← each_run iteratee (default [] coll); callback c.1;; c.2.

(** ** index.js *)

(** The pure part of [createFixtureList]: filter on [/\.json$/], then map
    with [fileName.replace('.json', '')]. *)
Definition fixtureList (fixtureFolderContents : list string) : list string :=
  map (JsString.replace ".json" "")
      (List.filter (JsString.ends_with ".json") fixtureFolderContents).

Definition createFixtureList (w : World) : M (list string) :=
  s ← get;
  match fixturePath s with
  | None => throw (TypeError "path must be a string")
  | Some p =>
      emit (EvReaddir p);;
      match dirs w !! p with
      | None => throw (FsError p)
      | Some fixtureFolderContents => mret (fixtureList fixtureFolderContents)
      end
  end.

(** The properties an object literal inherits from [Object.prototype]:
    methods, and under [__proto__] the prototype itself. *)
Definition object_prototype : list string :=
  [ "constructor"; "hasOwnProperty"; "isPrototypeOf"; "propertyIsEnumerable";
    "toLocaleString"; "toString"; "valueOf"; "__proto__";
    "__defineGetter__"; "__defineSetter__";
    "__lookupGetter__"; "__lookupSetter__" ].

Definition inherited (key : string) : JsVal :=
  if bool_decide (key ∈ object_prototype) then VNative key else VUndefined.

(** [cachedFixtures[fixtureName]] on the cache object, which is created
    as [{}]: its own property of that name, else the one it inherits. *)
Definition cache_get (c : gmap string JsVal) (fixtureName : string) : JsVal :=
  match c !! fixtureName with
  | Some v => v
  | None => inherited fixtureName
  end.

(** [fixturePath + fixtureName]. *)
Definition fixtureFile (s : State) (fixtureName : string) : string :=
  default "undefined" (fixturePath s) +:+ fixtureName.

Definition addToCache (w : World) (fixtureName : string) : M unit :=
  s ← get;
  let p := fixtureFile s fixtureName in
  emit (EvRequire p fixtureName);;
  fixtureData ← require w p;
  match cachedFixtures s with
  | None => throw (TypeError "cannot set properties of undefined")
  | Some c =>
      modify (set_cachedFixtures (Some (<[fixtureName := fixtureData]> c)))
  end.

Definition loadFixture (w : World) (fixtureName : string) : M Completion :=
  s ← get;
  match cachedFixtures s with
  | None => throw (TypeError "cannot read properties of undefined")
  | Some c =>
      (if truthy (cache_get c fixtureName) then mret tt
       else addToCache w fixtureName);;
      s' ← get;
      match models s' with
      | None => throw (TypeError "cannot read properties of undefined")
      | Some ms =>
          match ms !! fixtureName with
          | None =>
              throw (TypeError "cannot read properties of undefined (reading 'create')")
          | Some model =>
              let data := cache_get (default ∅ (cachedFixtures s')) fixtureName in
              emit (EvCreate fixtureName data);;
              completes (create model data)
          end
      end
  end.

(** [loadFixtures(cb)] is [fixtures = None]; [loadFixtures(fixtures, cb)]
    is [fixtures = Some _]. *)
Definition loadFixtures (w : World) (fixtures : option (list string))
    (cb : option JsError -> M unit) : M unit :=
  s ← get;
  (match cachedFixtures s with
   | Some _ => mret tt
   | None =>
       modify (set_cachedFixtures (Some ∅));;
       l ← createFixtureList w;
       modify (set_fixtureNames (Some l))
   end);;
  match fixtures with
  | None => s' ← get; async_each (fixtureNames s') (loadFixture w) cb
  | Some l => async_each (Some l) (loadFixture w) cb
  end.

(** [app.settings && app.settings.env ? app.settings.env
      : process.env.NODE_ENV]: an empty name is falsy. *)
Definition environment (w : World) (app : App) : option string :=
  match app_settings app with
  | Some st =>
      match env st with
      | Some e => if String.eqb e "" then NODE_ENV w else Some e
      | None => NODE_ENV w
      end
  | None => NODE_ENV w
  end.

(** [Array.isArray(config.environments)
      ? config.environments.indexOf(environment) !== -1
      : environment === config.environments]. *)
Definition env_match (envs : Environments) (e : option string) : bool :=
  match envs, e with
  | EnvList names, Some e => bool_decide (e ∈ names)
  | EnvScalar name, Some e => String.eqb e name
  | _, None => false
  end.

(** The callback [init] passes to [loadFixtures]. *)
Definition startupCallback (err : option JsError) : M unit :=
  match err with
  | None => mret tt
  | Some _ =>
      s ← get;
      match config s with
      | None => throw (TypeError "cannot read properties of undefined")
      | Some cfg =>
          if errorOnSetupFailure cfg
          then throw (StartupError "Failed to load fixtures on startup:")
          else mret tt
      end
  end.

Definition init (w : World) (app : App) (options : Options) : M unit :=
  modify (set_models (Some (app_models app)));;
  s ← get;
  let cfg := merge (defaults s) options in
  modify (set_config cfg);;
  modify (set_fixturePath (Some (path_join w (appRoot w) (fixturesPath cfg))));;
  if negb (env_match (environments cfg) (environment w app)) then mret tt
  else if loadFixturesOnStartup cfg then loadFixtures w None startupCallback
  else mret tt.

(** The [select] argument as [typeof] and [Array.isArray] tell it apart:
    absent (or the callback in its place), a string, an array of names. *)
Inductive Select : Type :=
| SelAbsent
| SelString (s : string)
| SelList (names : list string).

Definition setupCallback (errors : option JsError) : M unit :=
  match errors with
  | None => emit (EvCallback None (Some "setup complete"))
  | Some e =>
      s ← get;
      match config s with
      | None => throw (TypeError "cannot read properties of undefined")
      | Some cfg =>
          if errorOnSetupFailure cfg then emit (EvCallback (Some e) None)
          else emit (EvCallback None (Some "setup complete"))
      end
  end.

Definition setupFixtures (w : World) (select : Select) : M unit :=
  match select with
  | SelString str =>
      loadFixtures w (Some (JsString.split "," str)) setupCallback
  | SelAbsent | SelList _ => loadFixtures w None setupCallback
  end.

(** [app.datasources[dataSourceName]]. *)
Fixpoint ds_lookup (name : string) (l : list (string * DataSource))
  : option DataSource :=
  match l with
  | [] => None
  | (k, d) :: l' => if String.eqb k name then Some d else ds_lookup name l'
  end.

Definition remigrateModel (dataSourceName : string) (dataSource : DataSource)
    (model : string) : M Completion :=
  emit (EvAutomigrate dataSourceName (Some model));;
  completes (automigrate dataSource (Some model)).

Definition migrateDataSource (w : World) (app : App)
    (fixturesToTeardown : option (list string)) (dataSourceName : string)
  : M Completion :=
  match ds_lookup dataSourceName (app_datasources app) with
  | None => throw (TypeError "cannot read properties of undefined")
  | Some dataSource =>
      s ← get;
      match fixtureNames s with
      | Some _ =>
          match fixturesToTeardown with
          | None => throw (TypeError "cannot read properties of undefined")
          | Some names =>
              let modelNamesLower := map (toLowerCase w) names in
              let modelNamesBothCases := names ++ modelNamesLower in
              each_run (remigrateModel dataSourceName dataSource)
                       modelNamesBothCases
          end
      | None =>
          emit (EvAutomigrate dataSourceName None);;
          completes None
      end
  end.

Definition teardownCallback (errors : option JsError) : M unit :=
  emit (EvCallback None (Some "teardown complete")).

Definition teardownFixtures (w : World) (app : App) (select : Select)
  : M unit :=
  s ← get;
  let fixturesToTeardown :=
    match select with
    | SelString str => Some (JsString.split "," str)
    | SelAbsent | SelList _ => fixtureNames s
    end in
  let dataSourceNames := map fst (app_datasources app) in
  async_each (Some dataSourceNames)
             (migrateDataSource w app fixturesToTeardown) teardownCallback.

(** The three things a host does with the component. *)
Inductive Op : Type :=
| OpInit (app : App) (options : Options)
| OpSetup (select : Select)
| OpTeardown (app : App) (select : Select).

Definition run_op (w : World) (op : Op) : M unit :=
  match op with
  | OpInit app options => init w app options
  | OpSetup select => setupFixtures w select
  | OpTeardown app select => teardownFixtures w app select
  end.

(** A process lifetime: operations one after the other, each against the
    world as it is when the operation runs.  An exception ends the
    operation that raised it, not the process. *)
Fixpoint run_ops (ops : list (World * Op)) (s : State) : State * list Event :=
  match ops with
  | [] => (s, [])
  | (w, op) :: ops' =>
      let r := run_op w op s in
      let '(s', t) := run_ops ops' (r_state r) in
      (s', r_trace r ++ t)
  end.

(** ** Observations on traces *)

Definition is_callback (ev : Event) : bool :=
  match ev with EvCallback _ _ => true | _ => false end.

Definition is_readdir (ev : Event) : bool :=
  match ev with EvReaddir _ => true | _ => false end.


(** The callback invocations of a trace, in order. *)
Definition callbacks (t : list Event) : list Event := List.filter is_callback t.

(** The models a trace issues a bulk-create for, in order. *)
Fixpoint created (t : list Event) : list string :=
  match t with
  | [] => []
  | EvCreate n _ :: t' => n :: created t'
  | _ :: t' => created t'
  end.

(** The automigrate requests of a trace, in order. *)
Fixpoint automigrations (t : list Event) : list (string * option string) :=
  match t with
  | [] => []
  | EvAutomigrate ds m :: t' => (ds, m) :: automigrations t'
  | _ :: t' => automigrations t'
  end.

(** ** Specification vocabulary *)

(** The selected names, each as it is, then each as the runtime's
    [toLowerCase] returns it. *)
Definition both_cases (w : World) (names : list string) : list string :=
  names ++ map (toLowerCase w) names.

(** Every data source re-synchronised over exactly [names] in both
    casings. *)
Definition selected_migrations (w : World) (app : App) (names : list string)
  : list (string * option string) :=
  flat_map (fun ds => map (fun m => (ds, Some m)) (both_cases w names))
           (map fst (app_datasources app)).

(** Every data source re-migrated as a whole. *)
Definition whole_migrations (app : App) : list (string * option string) :=
  map (fun ds => (ds, None)) (map fst (app_datasources app)).

(** What [loadFixture] hands to [create] for a fixture: the cached value
    when it is truthy, else what [require] delivers. *)
Definition fixture_data (w : World) (s : State) (fixtureName : string) : JsVal :=
  let cached := cache_get (default ∅ (cachedFixtures s)) fixtureName in
  if truthy cached then cached
  else default VUndefined (resolve w s (fixtureFile s fixtureName)).

(** A fixture is loadable when the cache holds a truthy value for it or
    [require] of its file returns. *)
Definition loadable (w : World) (s : State) (fixtureName : string) : bool :=
  truthy (cache_get (default ∅ (cachedFixtures s)) fixtureName)
  || bool_decide (is_Some (resolve w s (fixtureFile s fixtureName))).

(** What the load of a fixture reports to its completion callback when
    its model is registered. *)
Definition load_result (w : World) (s : State) (fixtureName : string)
  : option JsError :=
  match models s with
  | Some ms =>
      match ms !! fixtureName with
      | Some model => create model (fixture_data w s fixtureName)
      | None => None
      end
  | None => None
  end.

Definition registered (s : State) (fixtureName : string) : bool :=
  match models s with
  | Some ms =>
      match ms !! fixtureName with
      | Some _ => true
      | None => false
      end
  | None => false
  end.

(** The first error a sequence of items reports. *)
Fixpoint first_error {A : Type} (res : A -> option JsError) (l : list A)
  : option JsError :=
  match l with
  | [] => None
  | x :: xs =>
      match res x with
      | Some e => Some e
      | None => first_error res xs
      end
  end.

(** What a caller of [setupFixtures] is told for a given join result. *)
Definition setup_report (cfg : Config) (errors : option JsError) : Event :=
  match errors with
  | Some e =>
      if errorOnSetupFailure cfg then EvCallback (Some e) None
      else EvCallback None (Some "setup complete")
  | None => EvCallback None (Some "setup complete")
  end.

(** The names a no-selection load works on: the stored list, built from
    the directory only when no cache object exists yet. *)
Definition names_in_force (w : World) (s : State) : option (list string) :=
  match cachedFixtures s with
  | Some _ => fixtureNames s
  | None =>
      match fixturePath s with
      | Some p => fixtureList <$> (dirs w !! p)
      | None => None
      end
  end.

(** Startup auto-load gate of [init]. *)
Definition startup_gate (w : World) (app : App) (cfg : Config) : bool :=
  env_match (environments cfg) (environment w app) && loadFixturesOnStartup cfg.

(** The automigrate requests [teardownFixtures] issues for a string (or
    absent) selection: one whole-set request per data source while the
    fixture list is undefined, else the requested names (the stored list
    when nothing is selected) in both casings. *)
Definition teardown_requests (w : World) (app : App) (s : State)
    (selection : option string) : list (string * option string) :=
  match fixtureNames s with
  | None => whole_migrations app
  | Some stored =>
      selected_migrations w app
        match selection with
        | Some str => JsString.split "," str
        | None => stored
        end
  end.

Definition request_event (r : string * option string) : Event :=
  EvAutomigrate r.1 r.2.

Definition selection_of (select : Select) : option string :=
  match select with
  | SelString str => Some str
  | SelAbsent | SelList _ => None
  end.

Definition is_require (ev : Event) : bool :=
  match ev with EvRequire _ _ => true | _ => false end.

(** A trace with its [require] calls left out. *)
Definition without_requires (t : list Event) : list Event :=
  List.filter (fun ev => negb (is_require ev)) t.

(** The bulk-create request for a fixture. *)
Definition create_event (w : World) (s : State) (fixtureName : string) : Event :=
  EvCreate fixtureName (fixture_data w s fixtureName).

(** The fixture list can be had: a cache object exists already, or the
    fixtures directory can be listed. *)
Definition list_ready (w : World) (s : State) : bool :=
  match cachedFixtures s with
  | Some _ => true
  | None =>
      match fixturePath s with
      | Some p => bool_decide (is_Some (dirs w !! p))
      | None => false
      end
  end.

(** The names a load works on, and those [setupFixtures] works on for a
    string or absent selection. *)
Definition load_names (w : World) (s : State) (fixtures : option (list string))
  : list string :=
  match fixtures with
  | Some l => l
  | None => default [] (names_in_force w s)
  end.

Definition setup_names (w : World) (s : State) (selection : option string)
  : list string :=
  load_names w s (JsString.split "," <$> selection).

(** What a run of loads keeps of the state it started in, [s0]: the
    module variables but the cache, where an entry changes only from a
    falsy value to what [require] returns for it, and what [require]
    returns for any request. *)
Definition setup_inv (w : World) (s0 s : State) : Prop :=
  models s = models s0 /\ config s = config s0 /\
  fixturePath s = fixturePath s0 /\ fixtureNames s = fixtureNames s0 /\
  defaults s = defaults s0 /\
  (forall request, resolve w s request = resolve w s0 request) /\
  exists c0 c,
    cachedFixtures s0 = Some c0 /\ cachedFixtures s = Some c /\
    forall n,
      cache_get c n = cache_get c0 n \/
      (truthy (cache_get c0 n) = false /\
       resolve w s0 (fixtureFile s0 n) = Some (cache_get c n)).

(** The module variables of [s1] are those of [s]. *)
Definition same_variables (s s1 : State) : Prop :=
  models s1 = models s /\ fixtureNames s1 = fixtureNames s /\
  fixturePath s1 = fixturePath s /\ cachedFixtures s1 = cachedFixtures s /\
  config s1 = config s /\ defaults s1 = defaults s.

(** The module state right after the first load has created the cache
    object and stored the fixture list. *)
Definition primed (l : list string) (s : State) : State :=
  set_fixtureNames (Some l) (set_cachedFixtures (Some ∅) s).

(** The directory listings a load performs: one, with the current fixture
    path, exactly when no cache object exists yet. *)
Definition listing_events (s : State) : list Event :=
  match cachedFixtures s, fixturePath s with
  | None, Some p => [EvReaddir p]
  | _, _ => []
  end.

(** A file stem without a dot. *)
Fixpoint dotless (s : string) : bool :=
  match s with
  | EmptyString => true
  | String c s' => negb (Ascii.eqb c ".") && dotless s'
  end.

(** ** Program logic *)

(** From state [s], computation [m] ends in a state satisfying [Inv],
    after events that all satisfy [P], with a value in [Q] or an exception
    in [E]. *)
Definition triple_at {A : Type} (Inv : State -> Prop) (P : Event -> Prop)
    (E : Exn -> Prop) (Q : A -> Prop) (m : M A) (s : State) : Prop :=
  Inv (r_state (m s)) /\ Forall P (r_trace (m s)) /\
  match r_out (m s) with
  | inl e => E e
  | inr a => Q a
  end.

Definition triple {A : Type} (Inv : State -> Prop) (P : Event -> Prop)
    (E : Exn -> Prop) (Q : A -> Prop) (m : M A) : Prop :=
  forall s, Inv s -> triple_at Inv P E Q m s.

(** A completion whose remaining work respects the invariant. *)
Definition good_post (Inv : State -> Prop) (P : Event -> Prop)
    (E : Exn -> Prop) (c : Completion) : Prop :=
  triple Inv P E (fun _ => True) c.2.

(** ** Sample host, used to run the component on concrete inputs *)

Definition sample_path : string := "/app/server/test-fixtures/".

Definition users_records : JsVal :=
  VArr [VObj [("name", VStr "Ann")]; VObj [("name", VStr "Bo")]].

Definition roles_records : JsVal := VObj [("id", VNum 1)].

(** Node's lookup among plain files (no sub-directory, no package): a
    request that names a directory arrives at nothing; any other is tried
    as it stands, then with [.js], [.json] and [.node] appended. *)
Definition flat_findPath (fs : gmap string (option JsVal)) (request : string)
  : option string :=
  if JsString.trailing_slash request then None
  else List.find (fun f => bool_decide (is_Some (fs !! f)))
         [request; request +:+ ".js"; request +:+ ".json"; request +:+ ".node"].

Definition sample_files (contents : list (string * JsVal))
  : gmap string (option JsVal) :=
  list_to_map (map (fun nc => (sample_path +:+ nc.1, Some nc.2)) contents).

(** A process whose fixture directory holds plain files with ASCII
    names. *)
Definition world_of (entries : list string) (contents : list (string * JsVal))
  : World := {|
  appRoot := "/app";
  path_join := String.append;
  NODE_ENV := Some "test";
  toLowerCase := JsString.ascii_lower;
  dirs := {[ sample_path := entries ]};
  findPath := flat_findPath (sample_files contents);
  files := sample_files contents
|}.

Definition accepting : Model := {| create := fun _ => None |}.
Definition rejecting : Model :=
  {| create := fun _ => Some (MkError "insert failed") |}.

Definition sample_ds : DataSource :=
  {| automigrate := fun _ => Some (MkError "migrate failed") |}.

Definition app_of (ms : list (string * Model)) : App := {|
  app_models := list_to_map ms;
  app_settings := Some {| env := Some "test" |};
  app_datasources := [("db", sample_ds); ("cache", sample_ds)]
|}.

Definition no_options : Options := {|
  o_loadFixturesOnStartup := None;
  o_errorOnSetupFailure := None;
  o_environments := None;
  o_fixturesPath := None
|}.

Definition two_fixtures : World :=
  world_of ["users.json"; "roles.json"; "notes.txt"]
           [("users.json", users_records); ("roles.json", roles_records)].

Definition two_models : App := app_of [("users", accepting); ("roles", accepting)].

Definition one_fixture : World :=
  world_of ["users.json"] [("users.json", users_records)].

Definition ghost_world : World :=
  world_of ["ghost.json"] [("ghost.json", users_records)].

Definition nested_extension : World :=
  world_of ["a.json.b.json"] [("a.json.b.json", users_records)].

Definition one_rejecting : App :=
  app_of [("users", rejecting); ("roles", accepting)].

Definition strict_options : Options := {|
  o_loadFixturesOnStartup := None;
  o_errorOnSetupFailure := Some true;
  o_environments := None;
  o_fixturesPath := None
|}.

Definition staging_options : Options := {|
  o_loadFixturesOnStartup := Some true;
  o_errorOnSetupFailure := None;
  o_environments := Some (EnvList ["test"; "staging"]);
  o_fixturesPath := None
|}.

Definition dev_app : App := {|
  app_models := app_models two_models;
  app_settings := Some {| env := Some "dev" |};
  app_datasources := app_datasources two_models
|}.

(** The module state once the component has been initialised with no
    options in the sample host. *)
Definition started : State :=
  r_state (init two_fixtures two_models no_options initial_state).

(** Initialised with [errorOnSetupFailure] on, in a host whose [users]
    model rejects every insert. *)
Definition strict : State :=
  r_state (init two_fixtures one_rejecting strict_options initial_state).

(** After a first full load in the sample host. *)
Definition loaded : State :=
  r_state (setupFixtures two_fixtures SelAbsent started).

(** After a first full load while the directory held [users.json] only. *)
Definition loaded_one : State :=
  r_state (setupFixtures one_fixture SelAbsent started).

(** The module state once [init] has made its assignments. *)
Definition configured (w : World) (app : App) (options : Options) (s : State)
  : State :=
  let cfg := merge (defaults s) options in
  set_fixturePath (Some (path_join w (appRoot w) (fixturesPath cfg)))
    (set_config cfg (set_models (Some (app_models app)) s)).

(** ** Further vocabulary *)

(** Occurrences of a character in a string. *)
Fixpoint count_char (c : ascii) (s : string) : nat :=
  match s with
  | EmptyString => 0
  | String a s' => (if Ascii.eqb a c then 1 else 0) + count_char c s'
  end.

(** No data file of the directory has a dot before its extension. *)
Definition plain_data_files (entries : list string) : bool :=
  forallb (fun f => dotless (JsString.strip_suffix ".json" f))
          (List.filter (JsString.ends_with ".json") entries).

Definition is_init (op : Op) : bool :=
  match op with OpInit _ _ => true | _ => false end.

(** The state a load starts its run of loads in: the state itself when a
    cache object exists, else the state with the fresh cache object and
    the list just built. *)
Definition load_start (w : World) (s : State) : State :=
  match cachedFixtures s with
  | Some _ => s
  | None => primed (default [] (names_in_force w s)) s
  end.

(** The [require] calls of a trace, by fixture name, in order. *)
Fixpoint required (t : list Event) : list string :=
  match t with
  | [] => []
  | EvRequire _ n :: t' => n :: required t'
  | _ :: t' => required t'
  end.

(** * Properties *)

(** ** The string functions on sample inputs *)

Example ends_with_samples :
  JsString.ends_with ".json" "users.json" = true
  /\ JsString.ends_with ".json" "users.json.bak" = false
  /\ JsString.ends_with ".json" "json" = false.
Proof. repeat split; reflexivity. Qed.

Example replace_samples :
  JsString.replace ".json" "" "users.json" = "users"
  /\ JsString.replace ".json" "" "plain" = "plain"
  /\ JsString.replace "" "x" "abc" = "xabc".
Proof. repeat split; reflexivity. Qed.

Example split_samples :
  JsString.split "," "a,b" = ["a"; "b"]
  /\ JsString.split "," "" = [""]
  /\ JsString.split "," "a," = ["a"; ""].
Proof. repeat split; reflexivity. Qed.

Example ascii_lower_sample : JsString.ascii_lower "UserRole_2" = "userrole_2".
Proof. reflexivity. Qed.

(** ** The runtime on sample inputs *)

(** A name the cache object inherits from [Object.prototype] is never
    required: the model is handed the inherited method. *)
Example inherited_key_sample :
  cache_get ∅ "constructor" = VNative "constructor" /\
  cache_get ∅ "users" = VUndefined /\
  r_trace (loadFixture two_fixtures "constructor"
             (primed []
                (r_state (init two_fixtures (app_of [("constructor", accepting)])
                            no_options initial_state)))) =
    [EvCreate "constructor" (VNative "constructor")].
Proof. repeat split; reflexivity. Qed.

(** A file named [.json] yields the empty fixture name, and the empty
    name the request [fixturePath + ''], which ends in [/]: Node looks for
    a directory's entry point and never appends an extension. *)
Example empty_name_sample :
  fixtureList [".json"; "users.json"] = [""; "users"] /\
  r_out (setupFixtures
           (world_of [".json"; "users.json"]
                     [(".json", roles_records); ("users.json", users_records)])
           SelAbsent started) = inl (ModuleNotFound sample_path) /\
  created (r_trace (setupFixtures
                      (world_of [".json"; "users.json"]
                                [(".json", roles_records);
                                 ("users.json", users_records)])
                      SelAbsent started)) = [].
Proof. repeat split; reflexivity. Qed.

(** A file required once is not read again: the second [require] returns
    what the first one did, whatever the file holds by then. *)
Example module_cache_sample :
  resolve one_fixture initial_state (sample_path +:+ "users") =
    Some users_records /\
  resolve (world_of ["users.json"] [("users.json", VNull)])
          (r_state (require one_fixture (sample_path +:+ "users") initial_state))
          (sample_path +:+ "users") = Some users_records /\
  r_out (require (world_of [] [])
           (sample_path +:+ "users")
           (r_state (require one_fixture (sample_path +:+ "users")
                       initial_state))) = inr users_records.
Proof. repeat split; reflexivity. Qed.

(** ** Running a computation *)

Lemma run_bind {A B : Type} (m : M A) (k : A -> M B) (s : State) :
  (m ≫= k) s =
  match r_out (m s) with
  | inl e => mkRes (r_state (m s)) (r_trace (m s)) (inl e)
  | inr a =>
      mkRes (r_state (k a (r_state (m s))))
            (r_trace (m s) ++ r_trace (k a (r_state (m s))))
            (r_out (k a (r_state (m s))))
  end.
Proof. reflexivity. Qed.

Lemma res_eta {A : Type} (r : Res A) :
  r = mkRes (r_state r) (r_trace r) (r_out r).
Proof. destruct r; reflexivity. Qed.

Section Logic.

Variable Inv : State -> Prop.
Variable P : Event -> Prop.
Variable E : Exn -> Prop.

Lemma triple_at_ret {A : Type} (Q : A -> Prop) (a : A) (s : State) :
  Inv s -> Q a -> triple_at Inv P E Q (mret a) s.
Proof. intros Hs Ha. repeat split; simpl; auto. Qed.

Lemma triple_at_throw {A : Type} (Q : A -> Prop) (e : Exn) (s : State) :
  Inv s -> E e -> triple_at Inv P E Q (throw e) s.
Proof. intros Hs He. repeat split; simpl; auto. Qed.

(** Sequencing, keeping track of the state the first part ends in. *)
Lemma triple_at_step {A B : Type} (Q : B -> Prop) (m : M A) (k : A -> M B)
    (s : State) :
  match r_out (m s) with
  | inl e => Inv (r_state (m s)) /\ Forall P (r_trace (m s)) /\ E e
  | inr a =>
      Forall P (r_trace (m s)) /\ triple_at Inv P E Q (k a) (r_state (m s))
  end ->
  triple_at Inv P E Q (m ≫= k) s.
Proof.
  unfold triple_at. rewrite run_bind.
  destruct (r_out (m s)) as [e|a]; simpl.
  - tauto.
  - intros (Ht & Hi & Ht' & Ho). repeat split; auto.
    apply Forall_app; auto.
Qed.

Lemma triple_at_bind {A B : Type} (Q1 : A -> Prop) (Q2 : B -> Prop)
    (m : M A) (k : A -> M B) (s : State) :
  triple_at Inv P E Q1 m s ->
  (forall a, Q1 a -> triple Inv P E Q2 (k a)) ->
  triple_at Inv P E Q2 (m ≫= k) s.
Proof.
  intros (Hi & Ht & Ho) Hk. apply triple_at_step.
  destruct (r_out (m s)) as [e|a]; auto.
  split; auto. apply Hk; auto.
Qed.

Lemma triple_at_get {B : Type} (Q : B -> Prop) (k : State -> M B) (s : State) :
  triple_at Inv P E Q (k s) s -> triple_at Inv P E Q (get ≫= k) s.
Proof. intros H. apply triple_at_step. simpl. auto. Qed.

Lemma triple_at_modify {B : Type} (Q : B -> Prop) (f : State -> State)
    (k : unit -> M B) (s : State) :
  triple_at Inv P E Q (k tt) (f s) -> triple_at Inv P E Q (modify f ≫= k) s.
Proof. intros H. apply triple_at_step. simpl. auto. Qed.

Lemma triple_at_emit {B : Type} (Q : B -> Prop) (ev : Event)
    (k : unit -> M B) (s : State) :
  P ev -> triple_at Inv P E Q (k tt) s -> triple_at Inv P E Q (emit ev ≫= k) s.
Proof. intros Hev H. apply triple_at_step. simpl. auto. Qed.

(** [async.each] after its callback: every remaining item is run. *)
Lemma each_rest_triple {A : Type} (iteratee : A -> M Completion) (l : list A) :
  (forall x, x ∈ l -> triple Inv P E (good_post Inv P E) (iteratee x)) ->
  triple Inv P E (fun _ => True) (each_rest iteratee l).
Proof.
  induction l as [|x xs IH]; intros Hf s Hs.
  - apply triple_at_ret; auto.
  - simpl. eapply triple_at_bind.
    + apply Hf; [left | exact Hs].
    + intros c Hc s1 Hs1. eapply triple_at_bind.
      * apply Hc; exact Hs1.
      * intros _ _. apply IH. intros y Hy. apply Hf. right; exact Hy.
Qed.

(** [async.each] up to its callback, whatever the items report. *)
Lemma each_run_triple_any {A : Type} (iteratee : A -> M Completion) (l : list A) :
  (forall x, x ∈ l -> triple Inv P E (good_post Inv P E) (iteratee x)) ->
  triple Inv P E (good_post Inv P E) (each_run iteratee l).
Proof.
  induction l as [|x xs IH]; intros Hf s Hs.
  - apply triple_at_ret; auto.
    intros s' Hs'. apply triple_at_ret; auto.
  - simpl. eapply triple_at_bind.
    + apply Hf; [left | exact Hs].
    + intros [e post] Hpost s1 Hs1. simpl.
      assert (Hrest : triple Inv P E (fun _ => True) (each_rest iteratee xs)).
      { apply each_rest_triple. intros y Hy. apply Hf. right; exact Hy. }
      destruct e as [err|].
      * apply triple_at_ret; auto.
        intros s2 Hs2. eapply triple_at_bind; [apply Hpost; exact Hs2|].
        intros _ _. exact Hrest.
      * destruct xs as [|y ys].
        -- apply triple_at_ret; auto.
        -- eapply triple_at_bind; [apply Hpost; exact Hs1|].
           intros _ _. apply IH. intros z Hz. apply Hf. right; exact Hz.
Qed.

Lemma async_each_triple {A : Type} (coll : option (list A))
    (iteratee : A -> M Completion) (callback : option JsError -> M unit) :
  (forall x, x ∈ default [] coll ->
     triple Inv P E (good_post Inv P E) (iteratee x)) ->
  (forall e, triple Inv P E (fun _ => True) (callback e)) ->
  triple Inv P E (fun _ => True) (async_each coll iteratee callback).
Proof.
  intros Hf Hcb s Hs. unfold async_each.
  eapply triple_at_bind.
  - apply each_run_triple_any; [exact Hf | exact Hs].
  - intros c Hc s1 Hs1. eapply triple_at_bind.
    + apply Hcb; exact Hs1.
    + intros _ _. exact Hc.
Qed.

End Logic.

(** ** Monad laws, pointwise *)

Lemma bind_ret_l {A B : Type} (a : A) (k : A -> M B) (s : State) :
  (mret a ≫= k) s = k a s.
Proof. rewrite run_bind. simpl. symmetry. apply res_eta. Qed.

Lemma bind_ret_r (m : M unit) (s : State) : (m ≫= fun _ => mret tt) s = m s.
Proof.
  rewrite run_bind. destruct (m s) as [s1 t1 [e|[]]]; simpl; [reflexivity|].
  rewrite app_nil_r. reflexivity.
Qed.

Lemma bind_assoc {A B C : Type} (m : M A) (k : A -> M B) (h : B -> M C)
    (s : State) :
  ((m ≫= k) ≫= h) s = (m ≫= fun a => k a ≫= h) s.
Proof.
  rewrite !run_bind. destruct (r_out (m s)) as [e|a]; simpl; [reflexivity|].
  rewrite run_bind. destruct (r_out (k a (r_state (m s)))) as [e|b]; simpl;
    [reflexivity|].
  rewrite app_assoc. reflexivity.
Qed.

Lemma bind_ext {A B : Type} (m : M A) (k k' : A -> M B) (s : State) :
  (forall a s', k a s' = k' a s') -> (m ≫= k) s = (m ≫= k') s.
Proof.
  intros H. rewrite !run_bind. destruct (r_out (m s)); [reflexivity|].
  rewrite H. reflexivity.
Qed.

(** ** [async.each] *)

(** Running [async.each] up to its callback and then what remains is
    running every item. *)
Lemma each_run_post_rest {A : Type} (iteratee : A -> M Completion) (l : list A)
    (s : State) :
  (each_run iteratee l ≫= fun c => c.2) s = each_rest iteratee l s.
Proof.
  revert s. induction l as [|x xs IH]; intros s.
  - reflexivity.
  - cbn [each_run each_rest]. rewrite bind_assoc. apply bind_ext.
    intros [e post] s1. cbn [fst snd].
    destruct e as [err|].
    + rewrite bind_ret_l. reflexivity.
    + destruct xs as [|y ys].
      * rewrite bind_ret_l. cbn [snd each_rest]. symmetry. apply bind_ret_r.
      * rewrite bind_assoc. apply bind_ext. intros _ s2. apply IH.
Qed.

(** Where the callback of [async.each], at the point where it is called,
    only reports to the outside, it fires exactly once, between two parts
    of what running every item does, provided no item throws. *)
Lemma async_each_decompose {A : Type} (iteratee : A -> M Completion)
    (coll : option (list A)) (callback : option JsError -> M unit)
    (report : option JsError -> list Event) (s : State) :
  (forall c, r_out (each_run iteratee (default [] coll) s) = inr c ->
     callback c.1 (r_state (each_run iteratee (default [] coll) s)) =
     mkRes (r_state (each_run iteratee (default [] coll) s)) (report c.1)
           (inr tt)) ->
  r_out (each_rest iteratee (default [] coll) s) = inr tt ->
  exists c t1 t2,
    r_out (each_run iteratee (default [] coll) s) = inr c /\
    r_trace (each_rest iteratee (default [] coll) s) = t1 ++ t2 /\
    async_each coll iteratee callback s =
      mkRes (r_state (each_rest iteratee (default [] coll) s))
            (t1 ++ report c.1 ++ t2) (inr tt).
Proof.
  set (l := default [] coll).
  intros Hcb. rewrite <- each_run_post_rest. unfold async_each. fold l.
  rewrite (run_bind (each_run iteratee l) (fun c => c.2) s).
  rewrite (run_bind (each_run iteratee l)
             (fun c => callback c.1 ≫= fun _ => c.2) s).
  destruct (r_out (each_run iteratee l s)) as [e|c]; cbn [r_out r_trace r_state];
    [intros H; discriminate H|].
  intros Hout. exists c, (r_trace (each_run iteratee l s)).
  exists (r_trace (c.2 (r_state (each_run iteratee l s)))).
  split; [reflexivity|]. split; [reflexivity|].
  rewrite run_bind, (Hcb c eq_refl). cbn [r_out r_trace r_state].
  rewrite Hout. reflexivity.
Qed.

(** ** Teardown *)

Lemma ds_lookup_elem (name : string) (l : list (string * DataSource)) :
  name ∈ map fst l -> is_Some (ds_lookup name l).
Proof.
  induction l as [|[k d] l IH]; simpl; intros H.
  - inversion H.
  - destruct (String.eqb_spec k name); [eauto|].
    apply IH. inversion H; subst; [contradiction | assumption].
Qed.

Lemma remigrateModel_run (ds : string) (d : DataSource) (m : string) (s : State) :
  remigrateModel ds d m s =
  mkRes s [EvAutomigrate ds (Some m)] (inr (automigrate d (Some m), mret tt)).
Proof. reflexivity. Qed.

Lemma each_rest_remigrate (ds : string) (d : DataSource) (l : list string)
    (s : State) :
  each_rest (remigrateModel ds d) l s =
  mkRes s (map (fun m => EvAutomigrate ds (Some m)) l) (inr tt).
Proof.
  induction l as [|m l IH]; [reflexivity|].
  cbn [each_rest]. rewrite run_bind, remigrateModel_run.
  cbn [r_out r_state r_trace snd]. rewrite bind_ret_l, IH. reflexivity.
Qed.

(** One data source: its requests, the module state untouched. *)
Lemma migrateDataSource_run (w : World) (app : App) (sel : Select) (ds : string)
    (s : State) :
  ds ∈ map fst (app_datasources app) ->
  let fixturesToTeardown :=
    match sel with
    | SelString str => Some (JsString.split "," str)
    | SelAbsent | SelList _ => fixtureNames s
    end in
  (migrateDataSource w app fixturesToTeardown ds ≫= fun c => c.2) s =
  mkRes s
    (match fixtureNames s with
     | None => [EvAutomigrate ds None]
     | Some stored =>
         map (fun m => EvAutomigrate ds (Some m))
             (both_cases w match selection_of sel with
                         | Some str => JsString.split "," str
                         | None => stored
                         end)
     end) (inr tt).
Proof.
  intros Hin ftt. unfold migrateDataSource.
  destruct (ds_lookup_elem _ _ Hin) as [d ->].
  rewrite bind_assoc, run_bind. simpl.
  destruct (fixtureNames s) as [stored|] eqn:Hn.
  - assert (Hftt : ftt = Some match selection_of sel with
                              | Some str => JsString.split "," str
                              | None => stored
                              end).
    { unfold ftt. destruct sel; simpl; congruence. }
    rewrite Hftt. rewrite each_run_post_rest, each_rest_remigrate. reflexivity.
  - reflexivity.
Qed.

Lemma each_rest_migrate (w : World) (app : App) (sel : Select) (names : list string)
    (s : State) :
  (forall ds, ds ∈ names -> ds ∈ map fst (app_datasources app)) ->
  each_rest
    (migrateDataSource w app
       match sel with
       | SelString str => Some (JsString.split "," str)
       | SelAbsent | SelList _ => fixtureNames s
       end) names s =
  mkRes s
    (flat_map
       (fun ds =>
          match fixtureNames s with
          | None => [EvAutomigrate ds None]
          | Some stored =>
              map (fun m => EvAutomigrate ds (Some m))
                  (both_cases w match selection_of sel with
                              | Some str => JsString.split "," str
                              | None => stored
                              end)
          end) names) (inr tt).
Proof.
  induction names as [|ds names IH]; intros Hsub; [reflexivity|].
  cbn [each_rest flat_map].
  rewrite <- (bind_assoc _ (fun c => c.2) (fun _ => each_rest _ names)).
  rewrite run_bind.
  rewrite (migrateDataSource_run w app sel ds s) by (apply Hsub; left).
  simpl. rewrite IH by (intros x Hx; apply Hsub; right; exact Hx).
  reflexivity.
Qed.

Lemma automigrations_app (t1 t2 : list Event) :
  automigrations (t1 ++ t2) = automigrations t1 ++ automigrations t2.
Proof.
  induction t1 as [|ev t1 IH]; [reflexivity|].
  destruct ev; simpl; rewrite ?IH; reflexivity.
Qed.

Lemma callbacks_app (t1 t2 : list Event) :
  callbacks (t1 ++ t2) = callbacks t1 ++ callbacks t2.
Proof. unfold callbacks. apply List.filter_app. Qed.

Lemma automigrations_requests (l : list (string * option string)) :
  automigrations (map request_event l) = l.
Proof.
  induction l as [|[ds m] l IH]; [reflexivity|]. simpl. rewrite IH. reflexivity.
Qed.

Lemma callbacks_requests (l : list (string * option string)) :
  callbacks (map request_event l) = [].
Proof. induction l as [|[ds m] l IH]; [reflexivity|]. exact IH. Qed.

Lemma teardown_events (w : World) (app : App) (s : State) (sel : Select) :
  flat_map
    (fun ds =>
       match fixtureNames s with
       | None => [EvAutomigrate ds None]
       | Some stored =>
           map (fun m => EvAutomigrate ds (Some m))
               (both_cases w match selection_of sel with
                           | Some str => JsString.split "," str
                           | None => stored
                           end)
       end) (map fst (app_datasources app)) =
  map request_event (teardown_requests w app s (selection_of sel)).
Proof.
  unfold teardown_requests, whole_migrations, selected_migrations.
  induction (map fst (app_datasources app)) as [|ds l IH].
  - destruct (fixtureNames s); reflexivity.
  - destruct (fixtureNames s) as [stored|]; simpl in *.
    + rewrite map_app, IH, map_map. reflexivity.
    + rewrite IH. reflexivity.
Qed.

(** What [teardownFixtures] does, in full: it never throws, leaves the
    module state as it is, reports once, and issues the requests of
    [teardown_requests]. *)
Lemma teardown_exact (w : World) (app : App) (sel : Select) (s : State) :
  exists t1 t2,
    t1 ++ t2 = map request_event (teardown_requests w app s (selection_of sel)) /\
    teardownFixtures w app sel s =
      mkRes s (t1 ++ EvCallback None (Some "teardown complete") :: t2) (inr tt).
Proof.
  unfold teardownFixtures. rewrite run_bind. simpl.
  pose proof (each_rest_migrate w app sel (map fst (app_datasources app)) s
                (fun ds H => H)) as Hrest.
  destruct (async_each_decompose
              (migrateDataSource w app
                 match sel with
                 | SelString str => Some (JsString.split "," str)
                 | SelAbsent | SelList _ => fixtureNames s
                 end)
              (Some (map fst (app_datasources app))) teardownCallback
              (fun _ => [EvCallback None (Some "teardown complete")]) s)
    as (c & t1 & t2 & _ & Ht & Hrun).
  - reflexivity.
  - cbn [default from_option id]. rewrite Hrest. reflexivity.
  - cbn [default from_option id] in Ht, Hrun.
    rewrite Hrest in Ht, Hrun. simpl in Ht, Hrun.
    exists t1, t2. split.
    + rewrite <- Ht. apply teardown_events.
    + rewrite Hrun. reflexivity.
Qed.

(** C4 — [teardownFixtures] always completes by calling back with a null
    error and ["teardown complete"], whatever the automigrate operations
    of the data sources report: for every application (hence every
    outcome of every automigrate), selection and module state, the call
    returns normally and its one callback invocation is
    [(null, "teardown complete")]. *)
Theorem C4_teardown_always_reports_success (w : World) (app : App) (sel : Select)
    (s : State) :
  r_out (teardownFixtures w app sel s) = inr tt /\
  callbacks (r_trace (teardownFixtures w app sel s)) =
    [EvCallback None (Some "teardown complete")].
Proof.
  destruct (teardown_exact w app sel s) as (t1 & t2 & Ht & ->).
  split; [reflexivity|]. cbn [r_trace].
  pose proof (callbacks_requests (teardown_requests w app s (selection_of sel)))
    as Hq.
  rewrite <- Ht, callbacks_app in Hq. apply app_eq_nil in Hq as [H1 H2].
  rewrite callbacks_app. cbn [callbacks List.filter is_callback].
  fold (callbacks t2). rewrite H1, H2. reflexivity.
Qed.

(** C2, on the code — [migrateDataSource] chooses between the selected
    names and the whole model set by [Array.isArray(fixtureNames)], the
    list the module stores at its first load, where the selection is
    [fixturesToTeardown].  So a string selection given while no load has
    stored a list re-migrates the entire model set of every data source:
    [teardownFixtures('users')] right after [init] does.  Only once a
    list is stored is every data source re-synchronised over exactly the
    selected names, each as it is and as the runtime's [toLowerCase]
    returns it. *)
Theorem C2_teardown_string_selection :
  (forall (w : World) (app : App) (str : string) (s : State),
     automigrations (r_trace (teardownFixtures w app (SelString str) s)) =
     match fixtureNames s with
     | Some _ => selected_migrations w app (JsString.split "," str)
     | None => whole_migrations app
     end) /\
  fixtureNames started = None /\
  automigrations
    (r_trace (teardownFixtures two_fixtures two_models (SelString "users")
                started)) =
    [("db", None); ("cache", None)] /\
  automigrations
    (r_trace (teardownFixtures two_fixtures two_models (SelString "users")
                started)) <>
    selected_migrations two_fixtures two_models ["users"] /\
  automigrations
    (r_trace (teardownFixtures two_fixtures two_models (SelString "users")
                loaded)) =
    [("db", Some "users"); ("db", Some "users");
     ("cache", Some "users"); ("cache", Some "users")].
Proof.
  split.
  - intros w app str s.
    destruct (teardown_exact w app (SelString str) s) as (t1 & t2 & Ht & ->).
    cbn [r_trace]. rewrite automigrations_app. cbn [automigrations].
    rewrite <- automigrations_app, Ht, automigrations_requests.
    unfold teardown_requests. cbn [selection_of].
    destruct (fixtureNames s); reflexivity.
  - split; [reflexivity|]. split; [vm_compute; reflexivity|].
    split; [vm_compute; discriminate | vm_compute; reflexivity].
Qed.

(** ** Loading fixtures *)

Lemma run_get {B : Type} (k : State -> M B) (s : State) :
  (get ≫= k) s = k s s.
Proof. rewrite run_bind. simpl. symmetry. apply res_eta. Qed.

Lemma run_modify {B : Type} (f : State -> State) (k : unit -> M B) (s : State) :
  (modify f ≫= k) s = k tt (f s).
Proof. rewrite run_bind. simpl. symmetry. apply res_eta. Qed.

Lemma run_emit {B : Type} (ev : Event) (k : unit -> M B) (s : State) :
  (emit ev ≫= k) s =
  mkRes (r_state (k tt s)) (ev :: r_trace (k tt s)) (r_out (k tt s)).
Proof. reflexivity. Qed.

Lemma run_throw {A B : Type} (e : Exn) (k : A -> M B) (s : State) :
  (throw e ≫= k) s = mkRes s [] (inl e).
Proof. reflexivity. Qed.

(** ** [require] *)

Lemma same_variables_refl (s : State) : same_variables s s.
Proof. repeat split. Qed.

Lemma resolve_path_insert (w : World) (s : State) (request filename : string) :
  pathCache s !! request = None -> findPath w request = Some filename ->
  forall q,
    resolve w (set_pathCache (<[request := filename]> (pathCache s)) s) q =
    resolve w s q.
Proof.
  intros Hp Hf q. unfold resolve. cbn [pathCache moduleCache set_pathCache].
  destruct (decide (request = q)) as [<-|Hne].
  - rewrite lookup_insert_eq, Hp, Hf. reflexivity.
  - rewrite lookup_insert_ne by exact Hne. reflexivity.
Qed.

Lemma resolve_module_insert (w : World) (s : State) (filename : string)
    (exports : JsVal) :
  moduleCache s !! filename = None ->
  files w !! filename = Some (Some exports) ->
  forall q,
    resolve w (set_moduleCache (<[filename := exports]> (moduleCache s)) s) q =
    resolve w s q.
Proof.
  intros Hm Hf q. unfold resolve. cbn [pathCache moduleCache set_moduleCache].
  destruct (match pathCache s !! q with
            | Some f => Some f
            | None => findPath w q
            end) as [g|]; [|reflexivity].
  destruct (decide (filename = g)) as [<-|Hne].
  - rewrite lookup_insert_eq, Hm, Hf. reflexivity.
  - rewrite lookup_insert_ne by exact Hne. reflexivity.
Qed.

(** Loading a resolved file: the module variables stay, and so does what
    [require] returns for any request. *)
Lemma loadModule_run (w : World) (filename : string) (s : State) :
  exists s1,
    same_variables s s1 /\ pathCache s1 = pathCache s /\
    (forall q, resolve w s1 q = resolve w s q) /\
    match
      match moduleCache s !! filename with
      | Some exports => Some exports
      | None => mjoin (files w !! filename)
      end
    with
    | Some d => loadModule w filename s = mkRes s1 [] (inr d)
    | None => exists e, loadModule w filename s = mkRes s1 [] (inl e)
    end.
Proof.
  unfold loadModule. rewrite run_get.
  destruct (moduleCache s !! filename) as [d|] eqn:Hm.
  - exists s. repeat split.
  - destruct (files w !! filename) as [[d|]|] eqn:Hf.
    + exists (set_moduleCache (<[filename := d]> (moduleCache s)) s).
      split; [repeat split|]. split; [reflexivity|].
      split; [apply resolve_module_insert; assumption|].
      reflexivity.
    + exists s. cbn. repeat split. eauto.
    + exists s. cbn. repeat split. eauto.
Qed.

(** [require] in full: it returns what [resolve] says, or throws; the
    module variables stay, and so does what [require] returns for any
    request from then on. *)
Lemma require_run (w : World) (request : string) (s : State) :
  exists s1,
    same_variables s s1 /\
    (forall q, resolve w s1 q = resolve w s q) /\
    match resolve w s request with
    | Some d => require w request s = mkRes s1 [] (inr d)
    | None => exists e, require w request s = mkRes s1 [] (inl e)
    end.
Proof.
  unfold require, resolveFilename. rewrite bind_assoc, run_get.
  destruct (pathCache s !! request) as [f|] eqn:Hp.
  - rewrite bind_ret_l.
    destruct (loadModule_run w f s) as (s1 & Hv & _ & Hst & Hrun).
    exists s1. split; [exact Hv|]. split; [exact Hst|].
    unfold resolve. rewrite Hp. exact Hrun.
  - destruct (findPath w request) as [f|] eqn:Hf.
    + rewrite bind_assoc, run_modify, bind_ret_l.
      set (s' := set_pathCache (<[request := f]> (pathCache s)) s).
      destruct (loadModule_run w f s') as (s1 & Hv & _ & Hst & Hrun).
      exists s1. split; [|split].
      * destruct Hv as (H1 & H2 & H3 & H4 & H5 & H6). repeat split; assumption.
      * intros q. rewrite Hst. apply resolve_path_insert; assumption.
      * unfold resolve. rewrite Hp, Hf. exact Hrun.
    + exists s. split; [repeat split|]. split; [reflexivity|].
      unfold resolve. rewrite Hp, Hf. eauto.
Qed.

(** [addToCache] in full. *)
Lemma addToCache_run (w : World) (n : string) (s : State)
    (c : gmap string JsVal) :
  cachedFixtures s = Some c ->
  exists s1,
    same_variables s s1 /\
    (forall q, resolve w s1 q = resolve w s q) /\
    match resolve w s (fixtureFile s n) with
    | Some d =>
        addToCache w n s =
        mkRes (set_cachedFixtures (Some (<[n := d]> c)) s1)
              [EvRequire (fixtureFile s n) n] (inr tt)
    | None =>
        exists e,
          addToCache w n s = mkRes s1 [EvRequire (fixtureFile s n) n] (inl e)
    end.
Proof.
  intros Hc. unfold addToCache. rewrite run_get, run_emit, run_bind.
  destruct (require_run w (fixtureFile s n) s) as (s1 & Hv & Hst & Hrun).
  exists s1. split; [exact Hv|]. split; [exact Hst|].
  destruct (resolve w s (fixtureFile s n)) as [d|].
  - rewrite Hrun, Hc. reflexivity.
  - destruct Hrun as [e ->]. eauto.
Qed.

Lemma setup_inv_intro (w : World) (s0 s : State) (c0 c : gmap string JsVal) :
  models s = models s0 -> config s = config s0 ->
  fixturePath s = fixturePath s0 -> fixtureNames s = fixtureNames s0 ->
  defaults s = defaults s0 ->
  (forall request, resolve w s request = resolve w s0 request) ->
  cachedFixtures s0 = Some c0 -> cachedFixtures s = Some c ->
  (forall n,
     cache_get c n = cache_get c0 n \/
     (truthy (cache_get c0 n) = false /\
      resolve w s0 (fixtureFile s0 n) = Some (cache_get c n))) ->
  setup_inv w s0 s.
Proof.
  intros. do 6 (split; [assumption|]). exists c0, c. auto.
Qed.

Lemma setup_inv_refl (w : World) (s : State) :
  is_Some (cachedFixtures s) -> setup_inv w s s.
Proof.
  intros [c Hc]. apply (setup_inv_intro w s s c c); auto.
Qed.

Lemma setup_inv_file (w : World) (s0 s : State) (n : string) :
  setup_inv w s0 s -> fixtureFile s n = fixtureFile s0 n.
Proof. intros (_ & _ & Hp & _). unfold fixtureFile. rewrite Hp. reflexivity. Qed.

Lemma setup_inv_data (w : World) (s0 s : State) (n : string) :
  setup_inv w s0 s -> fixture_data w s n = fixture_data w s0 n.
Proof.
  intros Hinv. pose proof (setup_inv_file w s0 s n Hinv) as Hf.
  destruct Hinv as (_ & _ & _ & _ & _ & Hr & c0 & c & Hc0 & Hc & Hcache).
  unfold fixture_data. rewrite Hf, Hr, Hc0, Hc. cbn [default from_option id].
  destruct (Hcache n) as [-> | [Hfalsy Hres]]; [reflexivity|].
  rewrite Hfalsy, Hres. cbn [default from_option id].
  destruct (truthy (cache_get c n)); reflexivity.
Qed.

Lemma cache_get_insert (c : gmap string JsVal) (n : string) (d : JsVal) :
  cache_get (<[n := d]> c) n = d.
Proof. unfold cache_get. rewrite lookup_insert_eq. reflexivity. Qed.

Lemma cache_get_insert_ne (c : gmap string JsVal) (n n' : string) (d : JsVal) :
  n <> n' -> cache_get (<[n := d]> c) n' = cache_get c n'.
Proof.
  intros Hne. unfold cache_get. rewrite lookup_insert_ne by exact Hne.
  reflexivity.
Qed.

(** One load of a registered, loadable fixture: it reports what [create]
    says about the fixture's data and has nothing left to do. *)
Lemma loadFixture_run (w : World) (s0 s : State) (n : string) :
  setup_inv w s0 s ->
  registered s0 n = true ->
  loadable w s0 n = true ->
  exists s1 t,
    loadFixture w n s = mkRes s1 t (inr (load_result w s0 n, mret tt)) /\
    setup_inv w s0 s1 /\
    without_requires t = [create_event w s0 n].
Proof.
  intros Hinv Hreg Hload.
  pose proof (setup_inv_file w s0 s n Hinv) as Hfile.
  pose proof (setup_inv_data w s0 s n Hinv) as Hdata.
  destruct Hinv as (Hm & Hcfg & Hp & Hn & Hd & Hr & c0 & c & Hc0 & Hc & Hcache).
  unfold registered in Hreg. unfold load_result, create_event.
  destruct (models s0) as [ms|] eqn:Hms; [|discriminate].
  destruct (ms !! n) as [model|] eqn:Hmodel; [|discriminate].
  unfold loadFixture. rewrite run_get, Hc.
  destruct (truthy (cache_get c n)) eqn:Ht.
  - rewrite bind_ret_l, run_get, Hm, Hmodel, Hc. cbn [default from_option id].
    assert (Hfd : fixture_data w s0 n = cache_get c n).
    { rewrite <- Hdata. unfold fixture_data. rewrite Hc. cbn [default from_option id].
      rewrite Ht. reflexivity. }
    rewrite Hfd. do 2 eexists. split; [reflexivity|]. split; [|reflexivity].
    apply (setup_inv_intro w s0 s c0 c); auto. congruence.
  - assert (Hres : exists d, resolve w s0 (fixtureFile s0 n) = Some d /\
                             truthy (cache_get c0 n) = false).
    { destruct (Hcache n) as [Heq | [Hfalsy Hres]]; [|eauto].
      unfold loadable in Hload. rewrite Hc0 in Hload. cbn [default from_option id] in Hload.
      rewrite <- Heq, Ht in Hload. cbn [orb] in Hload.
      destruct (resolve w s0 (fixtureFile s0 n)) as [d|]; [|discriminate].
      exists d. split; [reflexivity | congruence]. }
    destruct Hres as (d & Hres & Hfalsy).
    assert (Hfd : fixture_data w s0 n = d).
    { unfold fixture_data. rewrite Hc0. cbn [default from_option id]. rewrite Hfalsy, Hres.
      reflexivity. }
    destruct (addToCache_run w n s c Hc)
      as (s1 & (V1 & V2 & V3 & V4 & V5 & V6) & Hst & Hadd).
    rewrite Hfile, Hr, Hres in Hadd.
    rewrite run_bind, Hadd. cbn [r_out r_state r_trace].
    rewrite run_get. cbn [set_cachedFixtures models cachedFixtures].
    rewrite V1, Hm, Hmodel. cbn [default from_option id].
    rewrite !cache_get_insert, Hfd.
    exists (set_cachedFixtures (Some (<[n:=d]> c)) s1). eexists.
    split; [reflexivity|]. split; [|reflexivity].
    apply (setup_inv_intro w s0 _ c0 (<[n:=d]> c));
      cbn [set_cachedFixtures models config fixturePath fixtureNames defaults
           cachedFixtures]; try congruence.
    + intros q. transitivity (resolve w s1 q); [reflexivity|].
      rewrite Hst. apply Hr.
    + intros n'. destruct (decide (n = n')) as [<-|Hne].
      * right. rewrite cache_get_insert. auto.
      * rewrite cache_get_insert_ne by exact Hne. apply Hcache.
Qed.

Lemma without_requires_app (t1 t2 : list Event) :
  without_requires (t1 ++ t2) = without_requires t1 ++ without_requires t2.
Proof. unfold without_requires. apply List.filter_app. Qed.

(** Every item of a run of loads is started. *)
Lemma each_rest_load (w : World) (s0 : State) (l : list string) (s : State) :
  setup_inv w s0 s ->
  (forall n, n ∈ l -> registered s0 n = true /\ loadable w s0 n = true) ->
  exists s1 t,
    each_rest (loadFixture w) l s = mkRes s1 t (inr tt) /\
    setup_inv w s0 s1 /\
    without_requires t = map (create_event w s0) l.
Proof.
  revert s. induction l as [|n l IH]; intros s Hinv Hok.
  - exists s, []. auto.
  - destruct (Hok n) as [Hreg Hload]; [left|].
    destruct (loadFixture_run w s0 s n Hinv Hreg Hload) as (s1 & t & Hrun & Hinv1 & Ht).
    destruct (IH s1 Hinv1) as (s2 & t' & Hrest & Hinv2 & Ht').
    { intros x Hx. apply Hok. right; exact Hx. }
    cbn [each_rest]. rewrite run_bind, Hrun. cbn [r_out r_state r_trace snd].
    rewrite bind_ret_l, Hrest. cbn [r_out r_state r_trace].
    do 2 eexists. split; [reflexivity|]. split; [exact Hinv2|].
    rewrite without_requires_app, Ht, Ht'. reflexivity.
Qed.

(** The join of a run of loads fires with the first error reported. *)
Lemma each_run_load (w : World) (s0 : State) (l : list string) (s : State) :
  setup_inv w s0 s ->
  (forall n, n ∈ l -> registered s0 n = true /\ loadable w s0 n = true) ->
  exists s1 t post,
    each_run (loadFixture w) l s =
      mkRes s1 t (inr (first_error (load_result w s0) l, post)) /\
    setup_inv w s0 s1.
Proof.
  revert s. induction l as [|n l IH]; intros s Hinv Hok.
  - exists s, [], (mret tt). auto.
  - destruct (Hok n) as [Hreg Hload]; [left|].
    destruct (loadFixture_run w s0 s n Hinv Hreg Hload) as (s1 & t & Hrun & Hinv1 & Ht).
    cbn [each_run first_error]. rewrite run_bind, Hrun.
    cbn [r_out r_state r_trace fst snd].
    destruct (load_result w s0 n) as [err|].
    + do 3 eexists. split; [reflexivity | exact Hinv1].
    + destruct l as [|m l].
      * do 3 eexists. split; [reflexivity | exact Hinv1].
      * rewrite bind_ret_l.
        destruct (IH s1 Hinv1) as (s2 & t' & post & Hrest & Hinv2).
        { intros x Hx. apply Hok. right; exact Hx. }
        rewrite Hrest. cbn [r_out r_state r_trace].
        do 3 eexists. split; [reflexivity | exact Hinv2].
Qed.

Lemma setupCallback_run (cfg : Config) (errors : option JsError) (s : State) :
  config s = Some cfg ->
  setupCallback errors s = mkRes s [setup_report cfg errors] (inr tt).
Proof.
  intros Hcfg. destruct errors as [e|]; [|reflexivity].
  unfold setupCallback, setup_report. rewrite run_get, Hcfg.
  destruct (errorOnSetupFailure cfg); reflexivity.
Qed.

(** A run of loads joined by a callback that, for the error the run
    reports, only reports to the outside. *)
Lemma loads_join (w : World) (s0 : State) (cfg : Config)
    (coll : option (list string)) (cb : option JsError -> M unit)
    (report : list Event) (s : State) :
  config s0 = Some cfg ->
  setup_inv w s0 s ->
  (forall n, n ∈ default [] coll ->
     registered s0 n = true /\ loadable w s0 n = true) ->
  (forall s', config s' = Some cfg ->
     cb (first_error (load_result w s0) (default [] coll)) s' =
     mkRes s' report (inr tt)) ->
  exists s1 t1 t2,
    async_each coll (loadFixture w) cb s =
      mkRes s1 (t1 ++ report ++ t2) (inr tt) /\
    setup_inv w s0 s1 /\
    without_requires (t1 ++ t2) = map (create_event w s0) (default [] coll).
Proof.
  intros Hcfg Hinv Hok Hcb.
  destruct (each_rest_load w s0 _ s Hinv Hok) as (s1 & t & Hrest & Hinv1 & Ht).
  destruct (each_run_load w s0 _ s Hinv Hok) as (s2 & t' & post & Hrun & Hinv2).
  destruct (async_each_decompose (loadFixture w) coll cb
              (fun _ => report) s) as (c & t1 & t2 & Hc & Hsplit & Hjoin).
  - intros c Hc. rewrite Hrun in Hc. cbn [r_out] in Hc. injection Hc as <-.
    rewrite Hrun. cbn [r_state fst]. apply Hcb.
    destruct Hinv2 as (_ & -> & _). exact Hcfg.
  - rewrite Hrest. reflexivity.
  - rewrite Hrest in Hsplit, Hjoin. cbn [r_state r_trace] in Hsplit, Hjoin.
    exists s1, t1, t2. split; [exact Hjoin|]. split; [exact Hinv1|].
    rewrite <- Hsplit. exact Ht.
Qed.

Lemma loadFixtures_cached (w : World) (fixtures : option (list string))
    (cb : option JsError -> M unit) (s : State) :
  is_Some (cachedFixtures s) ->
  loadFixtures w fixtures cb s =
  async_each match fixtures with
             | Some l => Some l
             | None => fixtureNames s
             end (loadFixture w) cb s.
Proof.
  intros [c Hc]. unfold loadFixtures. rewrite run_get, Hc, bind_ret_l.
  destruct fixtures; [reflexivity|]. rewrite run_get. reflexivity.
Qed.

(** The first load: the directory is listed once, the list is stored, and
    the load goes on as a later one would. *)
Lemma loadFixtures_fresh (w : World) (fixtures : option (list string))
    (cb : option JsError -> M unit) (s : State) (p : string)
    (entries : list string) :
  cachedFixtures s = None ->
  fixturePath s = Some p ->
  dirs w !! p = Some entries ->
  loadFixtures w fixtures cb s =
  mkRes (r_state (loadFixtures w fixtures cb (primed (fixtureList entries) s)))
        (EvReaddir p ::
           r_trace (loadFixtures w fixtures cb (primed (fixtureList entries) s)))
        (r_out (loadFixtures w fixtures cb (primed (fixtureList entries) s))).
Proof.
  intros Hc Hp Hd.
  rewrite (loadFixtures_cached w fixtures cb (primed (fixtureList entries) s))
    by (cbn; eauto).
  unfold loadFixtures. rewrite run_get, Hc.
  rewrite !bind_assoc, run_modify. unfold createFixtureList.
  rewrite !bind_assoc, run_get. cbn [set_cachedFixtures fixturePath].
  rewrite Hp, !bind_assoc, run_emit, Hd, bind_ret_l, run_modify.
  fold (primed (fixtureList entries) s).
  destruct fixtures; [reflexivity|]. rewrite run_get. reflexivity.
Qed.

Lemma setupFixtures_unfold (w : World) (sel : Select) :
  setupFixtures w sel =
  loadFixtures w (JsString.split "," <$> selection_of sel) setupCallback.
Proof. destruct sel; reflexivity. Qed.

Lemma primed_registered (l : list string) (s : State) (n : string) :
  registered (primed l s) n = registered s n.
Proof. reflexivity. Qed.

Lemma primed_data (w : World) (l : list string) (s : State) (n : string) :
  cachedFixtures s = None ->
  fixture_data w (primed l s) n = fixture_data w s n.
Proof. intros Hc. unfold fixture_data. rewrite Hc. reflexivity. Qed.

Lemma primed_loadable (w : World) (l : list string) (s : State) (n : string) :
  cachedFixtures s = None -> loadable w (primed l s) n = loadable w s n.
Proof. intros Hc. unfold loadable. rewrite Hc. reflexivity. Qed.

Lemma primed_result (w : World) (l : list string) (s : State) (n : string) :
  cachedFixtures s = None -> load_result w (primed l s) n = load_result w s n.
Proof.
  intros Hc. unfold load_result. cbn [primed set_fixtureNames set_cachedFixtures models].
  destruct (models s) as [ms|]; [|reflexivity].
  destruct (ms !! n); [|reflexivity]. rewrite primed_data by exact Hc. reflexivity.
Qed.

Lemma first_error_ext {A : Type} (f g : A -> option JsError) (l : list A) :
  (forall x, f x = g x) -> first_error f l = first_error g l.
Proof.
  intros H. induction l as [|x l IH]; [reflexivity|].
  cbn [first_error]. rewrite H, IH. reflexivity.
Qed.

(** What [loadFixtures] does when nothing throws: the listing of the
    first load, the bulk-create requests of the names in force, and what
    the callback reports. *)
Lemma loadFixtures_exact (w : World) (fixtures : option (list string))
    (cb : option JsError -> M unit) (report : list Event) (s : State)
    (cfg : Config) :
  config s = Some cfg ->
  list_ready w s = true ->
  (forall n, n ∈ load_names w s fixtures ->
     registered s n = true /\ loadable w s n = true) ->
  (forall s', config s' = Some cfg ->
     cb (first_error (load_result w s) (load_names w s fixtures)) s' =
     mkRes s' report (inr tt)) ->
  exists s1 t1 t2,
    loadFixtures w fixtures cb s =
      mkRes s1 (listing_events s ++ t1 ++ report ++ t2) (inr tt) /\
    without_requires (t1 ++ t2) =
      map (create_event w s) (load_names w s fixtures) /\
    fixtureNames s1 = match cachedFixtures s with
                      | Some _ => fixtureNames s
                      | None => names_in_force w s
                      end /\
    is_Some (cachedFixtures s1).
Proof.
  intros Hcfg Hready Hok Hcb.
  unfold list_ready in Hready. unfold listing_events.
  destruct (cachedFixtures s) as [c|] eqn:Hc.
  - rewrite loadFixtures_cached by (rewrite Hc; eauto).
    assert (Hnames : default [] match fixtures with
                                | Some l => Some l
                                | None => fixtureNames s
                                end = load_names w s fixtures).
    { unfold load_names, names_in_force. rewrite Hc.
      destruct fixtures; reflexivity. }
    destruct (loads_join w s cfg
                match fixtures with
                | Some l => Some l
                | None => fixtureNames s
                end cb report s Hcfg) as (s1 & t1 & t2 & Hrun & Hinv & Ht).
    { apply setup_inv_refl. rewrite Hc. eauto. }
    { rewrite Hnames. exact Hok. }
    { rewrite Hnames. exact Hcb. }
    rewrite Hnames in Ht.
    exists s1, t1, t2. split; [exact Hrun|]. split; [exact Ht|].
    destruct Hinv as (_ & _ & _ & Hn & _ & _ & c0 & c1 & _ & Hc1 & _).
    split; [exact Hn | rewrite Hc1; eauto].
  - destruct (fixturePath s) as [p|] eqn:Hp; [|discriminate].
    apply bool_decide_eq_true in Hready. destruct Hready as [entries Hd].
    rewrite (loadFixtures_fresh w _ cb s p entries Hc Hp Hd).
    rewrite loadFixtures_cached by (cbn; eauto).
    set (s' := primed (fixtureList entries) s).
    assert (Hnames : default [] match fixtures with
                                | Some l => Some l
                                | None => fixtureNames s'
                                end = load_names w s fixtures).
    { unfold load_names, names_in_force. rewrite Hc, Hp, Hd.
      destruct fixtures; reflexivity. }
    assert (Hres : first_error (load_result w s') (load_names w s fixtures) =
                   first_error (load_result w s) (load_names w s fixtures)).
    { apply first_error_ext. intros x. apply primed_result, Hc. }
    destruct (loads_join w s' cfg
                match fixtures with
                | Some l => Some l
                | None => fixtureNames s'
                end cb report s' Hcfg) as (s1 & t1 & t2 & Hrun & Hinv & Ht).
    { apply setup_inv_refl. cbn. eauto. }
    { intros n Hn. rewrite Hnames in Hn. unfold s'.
      rewrite primed_registered, primed_loadable by exact Hc. apply Hok, Hn. }
    { rewrite Hnames, Hres. exact Hcb. }
    rewrite Hnames in Ht. rewrite Hrun. cbn [r_state r_trace r_out].
    exists s1, t1, t2.
    split; [reflexivity|]. split.
    + rewrite Ht. apply map_ext. intros n. unfold create_event, s'.
      rewrite primed_data by exact Hc. reflexivity.
    + destruct Hinv as (_ & _ & _ & Hn & _ & _ & c0 & c1 & _ & Hc1 & _).
      split; [|rewrite Hc1; eauto].
      rewrite Hn. unfold names_in_force. rewrite Hc, Hp, Hd. reflexivity.
Qed.

(** What [setupFixtures] does when nothing throws: one report to the
    caller. *)
Lemma setup_exact (w : World) (sel : Select) (s : State) (cfg : Config) :
  config s = Some cfg ->
  list_ready w s = true ->
  (forall n, n ∈ setup_names w s (selection_of sel) ->
     registered s n = true /\ loadable w s n = true) ->
  exists s1 t1 t2,
    setupFixtures w sel s =
      mkRes s1
        (listing_events s ++ t1 ++
         setup_report cfg
           (first_error (load_result w s) (setup_names w s (selection_of sel)))
         :: t2) (inr tt) /\
    without_requires (t1 ++ t2) =
      map (create_event w s) (setup_names w s (selection_of sel)) /\
    fixtureNames s1 = match cachedFixtures s with
                      | Some _ => fixtureNames s
                      | None => names_in_force w s
                      end /\
    is_Some (cachedFixtures s1).
Proof.
  intros Hcfg Hready Hok. rewrite setupFixtures_unfold.
  apply (loadFixtures_exact w _ setupCallback
           [setup_report cfg
              (first_error (load_result w s)
                 (setup_names w s (selection_of sel)))] s cfg Hcfg Hready Hok).
  intros s' Hcfg'. apply setupCallback_run, Hcfg'.
Qed.

(** The first load's list build, in full. *)
Lemma list_build_run (w : World) (s : State) :
  (modify (set_cachedFixtures (Some ∅));;
   l ← createFixtureList w; modify (set_fixtureNames (Some l))) s =
  match fixturePath s with
  | None =>
      mkRes (set_cachedFixtures (Some ∅) s) []
            (inl (TypeError "path must be a string"))
  | Some p =>
      match dirs w !! p with
      | None => mkRes (set_cachedFixtures (Some ∅) s) [EvReaddir p]
                      (inl (FsError p))
      | Some entries => mkRes (primed (fixtureList entries) s) [EvReaddir p] (inr tt)
      end
  end.
Proof.
  rewrite run_modify. unfold createFixtureList.
  rewrite bind_assoc, run_get. cbn [set_cachedFixtures fixturePath].
  destruct (fixturePath s) as [p|]; [|reflexivity].
  rewrite bind_assoc, run_emit.
  destruct (dirs w !! p) as [entries|]; reflexivity.
Qed.

(** ** What every operation preserves *)

Section Preservation.

Variable Inv : State -> Prop.
Variable P : Event -> Prop.

Let E : Exn -> Prop := fun _ => True.

Hypothesis P_create : forall n d, P (EvCreate n d).
Hypothesis P_automigrate : forall ds m, P (EvAutomigrate ds m).
Hypothesis P_callback : forall e r, P (EvCallback e r).
Hypothesis P_require :
  forall s c n, Inv s -> cachedFixtures s = Some c ->
    truthy (cache_get c n) = false -> P (EvRequire (fixtureFile s n) n).
Hypothesis Inv_cache :
  forall s c n d, Inv s -> cachedFixtures s = Some c ->
    truthy (cache_get c n) = false ->
    Inv (set_cachedFixtures (Some (<[n:=d]> c)) s).
Hypothesis Inv_fresh :
  forall s, Inv s -> cachedFixtures s = None ->
    (forall p, P (EvReaddir p)) /\ Inv (set_cachedFixtures (Some ∅) s) /\
    forall l, Inv (primed l s).
Hypothesis Inv_variables :
  forall s s1, same_variables s s1 -> Inv s -> Inv s1.

Lemma triple_at_of_run {A : Type} (Q : A -> Prop) (m : M A) (s s1 : State)
    (t : list Event) (o : Exn + A) :
  m s = mkRes s1 t o -> Inv s1 -> Forall P t ->
  match o with inl e => E e | inr a => Q a end ->
  triple_at Inv P E Q m s.
Proof. intros Hrun H1 H2 H3. unfold triple_at. rewrite Hrun. auto. Qed.

Lemma addToCache_keeps (w : World) (n : string) (s : State)
    (c : gmap string JsVal) :
  Inv s -> cachedFixtures s = Some c -> truthy (cache_get c n) = false ->
  triple_at Inv P E (fun _ => True) (addToCache w n) s.
Proof.
  intros Hs Hc Ht.
  destruct (addToCache_run w n s c Hc) as (s1 & Hv & _ & Hrun).
  pose proof (Inv_variables s s1 Hv Hs) as Hs1.
  assert (Hp : Forall P [EvRequire (fixtureFile s n) n]).
  { constructor; [eapply P_require; eauto | constructor]. }
  destruct (resolve w s (fixtureFile s n)) as [d|].
  - eapply triple_at_of_run; [exact Hrun | | exact Hp | exact I].
    apply Inv_cache; [exact Hs1 | | exact Ht].
    destruct Hv as (_ & _ & _ & -> & _). exact Hc.
  - destruct Hrun as [e Hrun].
    eapply triple_at_of_run; [exact Hrun | exact Hs1 | exact Hp | exact I].
Qed.

Lemma loadFixture_keeps (w : World) (n : string) :
  triple Inv P E (good_post Inv P E) (loadFixture w n).
Proof.
  intros s Hs. unfold loadFixture. apply triple_at_get.
  destruct (cachedFixtures s) as [c|] eqn:Hc;
    [|apply triple_at_throw; [exact Hs | exact I]].
  eapply triple_at_bind with (Q1 := fun _ => True).
  - destruct (truthy (cache_get c n)) eqn:Ht.
    + apply triple_at_ret; auto.
    + eapply addToCache_keeps; eauto.
  - intros _ _ s1 Hs1. apply triple_at_get.
    destruct (models s1) as [ms|];
      [|apply triple_at_throw; [exact Hs1 | exact I]].
    destruct (ms !! n) as [model|];
      [|apply triple_at_throw; [exact Hs1 | exact I]].
    apply triple_at_emit; [apply P_create|].
    apply triple_at_ret; [exact Hs1|].
    intros s2 Hs2. apply triple_at_ret; auto.
Qed.

Lemma loadFixtures_keeps (w : World) (fixtures : option (list string))
    (cb : option JsError -> M unit) :
  (forall e, triple Inv P E (fun _ => True) (cb e)) ->
  triple Inv P E (fun _ => True) (loadFixtures w fixtures cb).
Proof.
  intros Hcb s Hs. unfold loadFixtures. apply triple_at_get.
  eapply triple_at_bind with (Q1 := fun _ => True).
  - destruct (cachedFixtures s) as [c|] eqn:Hc; [apply triple_at_ret; auto|].
    destruct (Inv_fresh s Hs Hc) as (Hrd & Hinv1 & Hprimed).
    unfold triple_at. rewrite list_build_run.
    destruct (fixturePath s) as [p|]; [destruct (dirs w !! p)|];
      cbn [r_state r_trace r_out]; (split; [auto|]); (split; [|exact I]);
      repeat constructor; apply Hrd.
  - intros _ _ s1 Hs1.
    destruct fixtures as [l|].
    + apply async_each_triple; [|exact Hcb|exact Hs1].
      intros x _. apply loadFixture_keeps.
    + apply triple_at_get. apply async_each_triple; [|exact Hcb|exact Hs1].
      intros x _. apply loadFixture_keeps.
Qed.

Lemma setupCallback_keeps (e : option JsError) :
  triple Inv P E (fun _ => True) (setupCallback e).
Proof.
  intros s Hs. destruct e as [err|]; cbn [setupCallback].
  - apply triple_at_get.
    destruct (config s) as [cfg|];
      [|apply triple_at_throw; [exact Hs | exact I]].
    destruct (errorOnSetupFailure cfg);
      (eapply triple_at_of_run; [reflexivity | exact Hs | | exact I]);
      repeat constructor; apply P_callback.
  - eapply triple_at_of_run; [reflexivity | exact Hs | | exact I].
    repeat constructor; apply P_callback.
Qed.

Lemma startupCallback_keeps (e : option JsError) :
  triple Inv P E (fun _ => True) (startupCallback e).
Proof.
  intros s Hs. destruct e as [err|]; cbn [startupCallback].
  - apply triple_at_get.
    destruct (config s) as [cfg|];
      [|apply triple_at_throw; [exact Hs | exact I]].
    destruct (errorOnSetupFailure cfg);
      [apply triple_at_throw | apply triple_at_ret]; auto; exact I.
  - apply triple_at_ret; auto.
Qed.

Lemma setupFixtures_keeps (w : World) (sel : Select) :
  triple Inv P E (fun _ => True) (setupFixtures w sel).
Proof.
  rewrite setupFixtures_unfold. apply loadFixtures_keeps, setupCallback_keeps.
Qed.

Lemma teardownFixtures_keeps (w : World) (app : App) (sel : Select) :
  triple Inv P E (fun _ => True) (teardownFixtures w app sel).
Proof.
  intros s Hs.
  destruct (teardown_exact w app sel s) as (t1 & t2 & Ht & Hrun).
  eapply triple_at_of_run; [exact Hrun | exact Hs | | exact I].
  assert (Hall : Forall P (t1 ++ t2)).
  { rewrite Ht. apply Forall_forall. intros ev Hev.
    apply list_elem_of_In, in_map_iff in Hev. destruct Hev as ([ds m] & <- & _).
    apply P_automigrate. }
  apply Forall_app in Hall as [H1 H2].
  apply Forall_app. split; [exact H1|]. constructor; [apply P_callback | exact H2].
Qed.

Hypothesis Inv_models : forall s v, Inv s -> Inv (set_models v s).
Hypothesis Inv_config : forall s v, Inv s -> Inv (set_config v s).
Hypothesis Inv_path : forall s v, Inv s -> Inv (set_fixturePath v s).

Lemma init_keeps (w : World) (app : App) (options : Options) :
  triple Inv P E (fun _ => True) (init w app options).
Proof.
  intros s Hs. unfold init. apply triple_at_modify, triple_at_get.
  apply triple_at_modify, triple_at_modify.
  match goal with |- triple_at _ _ _ _ _ ?s1 => assert (Hs1 : Inv s1) end.
  { apply Inv_path, Inv_config, Inv_models, Hs. }
  destruct (negb _); [apply triple_at_ret; auto|].
  destruct (loadFixturesOnStartup _); [|apply triple_at_ret; auto].
  apply loadFixtures_keeps; [apply startupCallback_keeps | exact Hs1].
Qed.

Lemma run_op_keeps (w : World) (op : Op) :
  triple Inv P E (fun _ => True) (run_op w op).
Proof.
  destruct op; cbn [run_op].
  - apply init_keeps.
  - apply setupFixtures_keeps.
  - apply teardownFixtures_keeps.
Qed.

(** Over a whole process lifetime. *)
Lemma run_ops_keeps (ops : list (World * Op)) (s : State) :
  Inv s -> Inv (run_ops ops s).1 /\ Forall P (run_ops ops s).2.
Proof.
  revert s. induction ops as [|[w op] ops IH]; intros s Hs.
  - split; [exact Hs | constructor].
  - cbn [run_ops].
    destruct (run_op_keeps w op s Hs) as (Hs1 & Ht & _).
    destruct (IH _ Hs1) as [Hs2 Ht2].
    destruct (run_ops ops (r_state (run_op w op s))) as [s2 t2].
    cbn [fst snd] in *. split; [exact Hs2|]. apply Forall_app; auto.
Qed.

End Preservation.

(** ** Projections of traces *)

Lemma created_app (t1 t2 : list Event) :
  created (t1 ++ t2) = created t1 ++ created t2.
Proof.
  induction t1 as [|ev t1 IH]; [reflexivity|].
  destruct ev; simpl; rewrite ?IH; reflexivity.
Qed.

Lemma created_without_requires (t : list Event) :
  created (without_requires t) = created t.
Proof.
  induction t as [|ev t IH]; [reflexivity|].
  destruct ev; simpl; rewrite ?IH; reflexivity.
Qed.

Lemma callbacks_without_requires (t : list Event) :
  callbacks (without_requires t) = callbacks t.
Proof.
  induction t as [|ev t IH]; [reflexivity|].
  destruct ev; simpl; rewrite ?IH; try reflexivity; exact IH.
Qed.

Lemma readdirs_without_requires (t : list Event) :
  List.filter is_readdir (without_requires t) = List.filter is_readdir t.
Proof.
  induction t as [|ev t IH]; [reflexivity|].
  destruct ev; simpl; rewrite ?IH; try reflexivity; exact IH.
Qed.

Lemma created_create_events (w : World) (s : State) (l : list string) :
  created (map (create_event w s) l) = l.
Proof. induction l as [|n l IH]; [reflexivity|]. simpl. rewrite IH. reflexivity. Qed.

Lemma callbacks_create_events (w : World) (s : State) (l : list string) :
  callbacks (map (create_event w s) l) = [].
Proof. induction l as [|n l IH]; [reflexivity|]. exact IH. Qed.

Lemma readdirs_create_events (w : World) (s : State) (l : list string) :
  List.filter is_readdir (map (create_event w s) l) = [].
Proof. induction l as [|n l IH]; [reflexivity|]. exact IH. Qed.

Lemma setup_report_callback (cfg : Config) (e : option JsError) :
  is_callback (setup_report cfg e) = true.
Proof.
  destruct e; unfold setup_report; [destruct (errorOnSetupFailure cfg)|];
    reflexivity.
Qed.

Lemma callbacks_listing (s : State) : callbacks (listing_events s) = [].
Proof.
  unfold listing_events. destruct (cachedFixtures s), (fixturePath s); reflexivity.
Qed.

Lemma created_listing (s : State) : created (listing_events s) = [].
Proof.
  unfold listing_events. destruct (cachedFixtures s), (fixturePath s); reflexivity.
Qed.

Lemma readdirs_listing (s : State) :
  List.filter is_readdir (listing_events s) = listing_events s.
Proof.
  unfold listing_events. destruct (cachedFixtures s), (fixturePath s); reflexivity.
Qed.

Lemma filter_none {A : Type} (f : A -> bool) (l : list A) :
  Forall (fun x => f x = false) l -> List.filter f l = [].
Proof.
  induction 1 as [|x l Hx _ IH]; [reflexivity|]. simpl. rewrite Hx. exact IH.
Qed.

(** ** Setup: the claims *)

Lemma first_error_none {A : Type} (res : A -> option JsError) (l : list A) :
  (forall x, x ∈ l -> res x = None) -> first_error res l = None.
Proof.
  induction l as [|x l IH]; intros H; [reflexivity|].
  cbn [first_error]. rewrite (H x) by left.
  apply IH. intros y Hy. apply H. right; exact Hy.
Qed.

Lemma first_error_some {A : Type} (res : A -> option JsError) (l : list A)
    (e : JsError) :
  first_error res l = Some e -> exists x, x ∈ l /\ res x = Some e.
Proof.
  induction l as [|x l IH]; cbn [first_error]; intros H; [discriminate H|].
  destruct (res x) as [e'|] eqn:Hx.
  - injection H as <-. exists x. split; [left | exact Hx].
  - destruct (IH H) as (y & Hy & Hres). exists y. split; [right|]; assumption.
Qed.

Lemma first_error_exists {A : Type} (res : A -> option JsError) (l : list A) :
  (exists x, x ∈ l /\ res x <> None) -> is_Some (first_error res l).
Proof.
  intros (x & Hx & Hres).
  destruct (first_error res l) as [e|] eqn:Hfe; [eauto|].
  exfalso. apply Hres. clear Hres. revert Hfe.
  induction l as [|y l IH]; [inversion Hx|].
  cbn [first_error]. destruct (res y) as [e|] eqn:Hy; [discriminate|].
  intros Hfe. apply elem_of_cons in Hx as [->|Hx]; [exact Hy | auto].
Qed.

(** The one report of a setup in which no load throws. *)
Lemma setup_callbacks (w : World) (sel : Select) (s : State) (cfg : Config) :
  config s = Some cfg ->
  list_ready w s = true ->
  (forall n, n ∈ setup_names w s (selection_of sel) ->
     registered s n = true /\ loadable w s n = true) ->
  r_out (setupFixtures w sel s) = inr tt /\
  callbacks (r_trace (setupFixtures w sel s)) =
    [setup_report cfg
       (first_error (load_result w s) (setup_names w s (selection_of sel)))].
Proof.
  intros Hcfg Hready Hok.
  destruct (setup_exact w sel s cfg Hcfg Hready Hok)
    as (s1 & t1 & t2 & -> & Ht & _).
  split; [reflexivity|]. cbn [r_trace].
  pose proof (callbacks_create_events w s (setup_names w s (selection_of sel)))
    as Hq.
  rewrite <- Ht, callbacks_without_requires, callbacks_app in Hq.
  apply app_eq_nil in Hq as [H1 H2].
  rewrite !callbacks_app, callbacks_listing, H1. cbn [app].
  unfold callbacks at 1. cbn [List.filter]. rewrite setup_report_callback.
  fold (callbacks t2). rewrite H2. reflexivity.
Qed.

(** C5, as amended — in an initialised component, and provided no load
    throws (the fixture list can be had, and every fixture worked on has
    a registered model and content that can be loaded), [setupFixtures]
    returns and invokes its callback exactly once: with a null error and
    ["setup complete"] whenever every individual load reports success,
    and also whenever some load reports an error to its completion
    callback while [errorOnSetupFailure] is false; when
    [errorOnSetupFailure] is true and some load reports an error, with
    the error one of the failing loads reported, as it is. *)
Theorem C5_setup_reports (w : World) (sel : Select) (s : State) (cfg : Config) :
  config s = Some cfg ->
  list_ready w s = true ->
  (forall n, n ∈ setup_names w s (selection_of sel) ->
     registered s n = true /\ loadable w s n = true) ->
  r_out (setupFixtures w sel s) = inr tt /\
  ((forall n, n ∈ setup_names w s (selection_of sel) ->
      load_result w s n = None) ->
   callbacks (r_trace (setupFixtures w sel s)) =
     [EvCallback None (Some "setup complete")]) /\
  (errorOnSetupFailure cfg = false ->
   callbacks (r_trace (setupFixtures w sel s)) =
     [EvCallback None (Some "setup complete")]) /\
  (errorOnSetupFailure cfg = true ->
   (exists n, n ∈ setup_names w s (selection_of sel) /\
              load_result w s n <> None) ->
   exists n e,
     n ∈ setup_names w s (selection_of sel) /\
     load_result w s n = Some e /\
     callbacks (r_trace (setupFixtures w sel s)) = [EvCallback (Some e) None]).
Proof.
  intros Hcfg Hready Hok.
  destruct (setup_callbacks w sel s cfg Hcfg Hready Hok) as [Hout ->].
  split; [exact Hout|]. split; [|split].
  - intros Hall. rewrite (first_error_none _ _ Hall). reflexivity.
  - intros Hflag. unfold setup_report. rewrite Hflag.
    destruct (first_error _ _); reflexivity.
  - intros Hflag Hsome.
    destruct (first_error_exists _ _ Hsome) as [e He].
    destruct (first_error_some _ _ e He) as (n & Hn & Hres).
    exists n, e. split; [exact Hn|]. split; [exact Hres|].
    rewrite He. unfold setup_report. rewrite Hflag. reflexivity.
Qed.

(** A run of C5 with [errorOnSetupFailure] on and a rejecting model: the
    caller gets the error of the load that failed. *)
Lemma C5_witness :
  r_out (setupFixtures two_fixtures SelAbsent strict) = inr tt /\
  exists n e,
    n ∈ ["users"; "roles"] /\
    load_result two_fixtures strict n = Some e /\
    callbacks (r_trace (setupFixtures two_fixtures SelAbsent strict)) =
      [EvCallback (Some e) None].
Proof.
  destruct (C5_setup_reports two_fixtures SelAbsent strict
              (merge initial_defaults strict_options) eq_refl eq_refl)
    as (Hout & _ & _ & Herr).
  - intros n Hn. vm_compute in Hn.
    apply elem_of_cons in Hn as [->|Hn]; [split; reflexivity|].
    apply elem_of_cons in Hn as [->|Hn]; [split; reflexivity|].
    inversion Hn.
  - split; [exact Hout|]. apply Herr; [reflexivity|].
    exists "users". split; [left | intros H; vm_compute in H; discriminate H].
Defined.

(** C5, as stated, fails: with [errorOnSetupFailure] off, a load that
    fails because no model is registered under the fixture's name ends the
    call in an exception, and the callback is not invoked at all. *)
Lemma C5_counterexample :
  errorOnSetupFailure <$> config started = Some false /\
  registered started "ghost" = false /\
  r_out (setupFixtures ghost_world (SelString "ghost") started) =
    inl (TypeError "cannot read properties of undefined (reading 'create')") /\
  callbacks (r_trace (setupFixtures ghost_world (SelString "ghost") started)) <>
    [EvCallback None (Some "setup complete")].
Proof.
  repeat split; try reflexivity. vm_compute. discriminate.
Qed.

(** Once a cache object exists, the stored fixture list stays and the
    directory is never listed again, whatever the host does. *)
Lemma fixture_list_kept (names : option (list string)) (ops : list (World * Op))
    (s : State) :
  is_Some (cachedFixtures s) ->
  fixtureNames s = names ->
  (is_Some (cachedFixtures (run_ops ops s).1) /\
   fixtureNames (run_ops ops s).1 = names) /\
  Forall (fun ev => is_readdir ev = false) (run_ops ops s).2.
Proof.
  intros Hc Hn.
  apply (run_ops_keeps
           (fun s' => is_Some (cachedFixtures s') /\ fixtureNames s' = names)
           (fun ev => is_readdir ev = false)); try (intros; reflexivity).
  - intros s' c n d [_ Hn'] _ _. split; [cbn; eauto | exact Hn'].
  - intros s' [[c Hc'] _] Hnone. congruence.
  - intros s' s1 (_ & Hn1 & _ & Hc1 & _) [Hc' Hn']. rewrite Hc1, Hn1. auto.
  - intros s' v H. exact H.
  - intros s' v H. exact H.
  - intros s' v H. exact H.
  - split; assumption.
Qed.

(** ** A setup with no selection, whatever happens *)

(** One load, whatever becomes of it: it never reports to the caller nor
    lists a directory; it has issued its bulk-create exactly when it
    returns, and then has nothing left to do. *)
Lemma loadFixture_outcome (w : World) (n : string) (s : State) :
  callbacks (r_trace (loadFixture w n s)) = [] /\
  List.filter is_readdir (r_trace (loadFixture w n s)) = [] /\
  match r_out (loadFixture w n s) with
  | inl _ => created (r_trace (loadFixture w n s)) = []
  | inr c => created (r_trace (loadFixture w n s)) = [n] /\ c.2 = mret tt
  end.
Proof.
  unfold loadFixture. rewrite run_get.
  destruct (cachedFixtures s) as [c|] eqn:Hc; [|repeat split].
  destruct (truthy (cache_get c n)).
  - rewrite bind_ret_l, run_get.
    destruct (models s) as [ms|]; [|repeat split].
    destruct (ms !! n); repeat split.
  - destruct (addToCache_run w n s c Hc) as (s1 & _ & _ & Hadd).
    rewrite run_bind.
    destruct (resolve w s (fixtureFile s n)) as [d|].
    + rewrite Hadd. cbn [r_out r_state r_trace]. rewrite run_get.
      destruct (models _) as [ms|]; [|repeat split].
      destruct (ms !! n); repeat split.
    + destruct Hadd as [e ->]. repeat split.
Qed.

(** Every item of a run of loads is started, in order, until one
    throws. *)
Lemma each_rest_outcome (w : World) (l : list string) (s : State) :
  callbacks (r_trace (each_rest (loadFixture w) l s)) = [] /\
  List.filter is_readdir (r_trace (each_rest (loadFixture w) l s)) = [] /\
  created (r_trace (each_rest (loadFixture w) l s)) `prefix_of` l /\
  (r_out (each_rest (loadFixture w) l s) = inr tt ->
   created (r_trace (each_rest (loadFixture w) l s)) = l).
Proof.
  revert s. induction l as [|n l IH]; intros s.
  - repeat split. apply prefix_nil.
  - cbn [each_rest]. rewrite run_bind.
    destruct (loadFixture_outcome w n s) as (Hcb & Hrd & Hout).
    destruct (r_out (loadFixture w n s)) as [e|c]; cbn [r_out r_trace].
    + rewrite Hcb, Hrd, Hout. repeat split; [apply prefix_nil|].
      intros H; discriminate H.
    + destruct Hout as [Hcr Hpost]. rewrite Hpost, bind_ret_l.
      destruct (IH (r_state (loadFixture w n s))) as (Hcb' & Hrd' & Hpre & Hall).
      rewrite callbacks_app, List.filter_app, created_app, Hcb, Hrd, Hcr.
      cbn [List.app]. split; [exact Hcb'|]. split; [exact Hrd'|].
      split; [apply prefix_cons, Hpre|].
      intros H. rewrite (Hall H). reflexivity.
Qed.

(** The same up to the point where the join fires: what remains then is
    to start the items not started yet. *)
Lemma each_run_outcome (w : World) (l : list string) (s : State) :
  callbacks (r_trace (each_run (loadFixture w) l s)) = [] /\
  List.filter is_readdir (r_trace (each_run (loadFixture w) l s)) = [] /\
  match r_out (each_run (loadFixture w) l s) with
  | inl _ => created (r_trace (each_run (loadFixture w) l s)) `prefix_of` l
  | inr c =>
      exists rest,
        l = created (r_trace (each_run (loadFixture w) l s)) ++ rest /\
        forall s', c.2 s' = each_rest (loadFixture w) rest s'
  end.
Proof.
  revert s. induction l as [|n l IH]; intros s.
  - repeat split. exists []. split; reflexivity.
  - cbn [each_run]. rewrite run_bind.
    destruct (loadFixture_outcome w n s) as (Hcb & Hrd & Hout).
    destruct (r_out (loadFixture w n s)) as [e|c]; cbn [r_out r_trace].
    + rewrite Hcb, Hrd, Hout. repeat split. apply prefix_nil.
    + destruct Hout as [Hcr Hpost]. destruct c as [[err|] post];
        cbn [fst snd] in *; subst post.
      * cbn [r_out r_trace r_state M_ret mret].
        rewrite app_nil_r, Hcb, Hrd, Hcr. repeat split.
        exists l. split; [reflexivity|].
        intros s'. cbn [snd]. rewrite bind_ret_l. reflexivity.
      * destruct l as [|m l].
        -- cbn [r_out r_trace r_state M_ret mret].
           rewrite app_nil_r, Hcb, Hrd, Hcr. repeat split.
           exists []. split; reflexivity.
        -- rewrite bind_ret_l.
           destruct (IH (r_state (loadFixture w n s))) as (Hcb' & Hrd' & Hout').
           rewrite callbacks_app, List.filter_app, created_app, Hcb, Hrd, Hcr.
           cbn [List.app]. split; [exact Hcb'|]. split; [exact Hrd'|].
           destruct (r_out (each_run (loadFixture w) (m :: l)
                              (r_state (loadFixture w n s)))) as [e|c].
           ++ apply prefix_cons, Hout'.
           ++ destruct Hout' as (rest & Hl & Hpost).
              exists rest. split; [rewrite Hl at 1; reflexivity | exact Hpost].
Qed.

Lemma setupCallback_quiet (e : option JsError) (s : State) :
  r_state (setupCallback e s) = s /\
  created (r_trace (setupCallback e s)) = [] /\
  List.filter is_readdir (r_trace (setupCallback e s)) = [] /\
  length (callbacks (r_trace (setupCallback e s))) <= 1.
Proof.
  destruct e as [err|]; cbn [setupCallback]; [|repeat split; cbn; lia].
  rewrite run_get. destruct (config s) as [cfg|]; [|repeat split; cbn; lia].
  destruct (errorOnSetupFailure cfg); repeat split; cbn; lia.
Qed.

(** A run of loads joined by the callback of [setupFixtures]: bulk-creates
    for the collection in order, all of them when the run returns. *)
Lemma loads_outcome (w : World) (coll : option (list string)) (s : State) :
  List.filter is_readdir
    (r_trace (async_each coll (loadFixture w) setupCallback s)) = [] /\
  created (r_trace (async_each coll (loadFixture w) setupCallback s))
    `prefix_of` default [] coll /\
  (r_out (async_each coll (loadFixture w) setupCallback s) = inr tt ->
   created (r_trace (async_each coll (loadFixture w) setupCallback s)) =
   default [] coll).
Proof.
  unfold async_each. set (l := default [] coll). rewrite run_bind.
  destruct (each_run_outcome w l s) as (_ & Hrd & Hout).
  destruct (r_out (each_run (loadFixture w) l s)) as [e|c];
    cbn [r_out r_trace r_state].
  - split; [exact Hrd|]. split; [exact Hout|]. intros H; discriminate H.
  - destruct Hout as (rest & Hl & Hpost).
    set (s1 := r_state (each_run (loadFixture w) l s)) in *.
    rewrite run_bind.
    destruct (setupCallback_quiet c.1 s1) as (Hs1 & Hcr & Hrd1 & _).
    destruct (r_out (setupCallback c.1 s1)) as [e|[]];
      cbn [r_out r_trace r_state].
    + rewrite List.filter_app, created_app, Hrd, Hrd1, Hcr, !app_nil_r.
      split; [reflexivity|]. split; [|intros H; discriminate H].
      exists rest. exact Hl.
    + rewrite Hs1, Hpost.
      destruct (each_rest_outcome w rest s1) as (_ & Hrd2 & Hpre & Hall).
      rewrite !List.filter_app, !created_app, Hrd, Hrd1, Hrd2, Hcr.
      cbn [List.app]. split; [reflexivity|]. split.
      * destruct Hpre as [k Hk]. exists k. rewrite <- app_assoc, <- Hk.
        exact Hl.
      * intros H. rewrite (Hall H). symmetry. exact Hl.
Qed.

(** A load always leaves a cache object behind. *)
Lemma setup_cache_exists (w : World) (sel : Select) (s : State) :
  is_Some (cachedFixtures (r_state (setupFixtures w sel s))).
Proof.
  assert (Hstays : forall s0, is_Some (cachedFixtures s0) ->
            is_Some (cachedFixtures (r_state (setupFixtures w sel s0)))).
  { intros s0 H0.
    apply (setupFixtures_keeps (fun s' => is_Some (cachedFixtures s'))
                               (fun _ => True)); auto.
    intros s' s1 (_ & _ & _ & H4 & _) H. rewrite H4. exact H. }
  destruct (cachedFixtures s) as [c|] eqn:Hc.
  - apply Hstays. rewrite Hc. eauto.
  - rewrite setupFixtures_unfold.
    destruct (fixturePath s) as [p|] eqn:Hp;
      [destruct (dirs w !! p) as [entries|] eqn:Hd|].
    + rewrite (loadFixtures_fresh w _ _ s p entries Hc Hp Hd).
      cbn [r_state]. rewrite <- setupFixtures_unfold. apply Hstays.
      cbn. eauto.
    + unfold loadFixtures. rewrite run_get, Hc, run_bind, list_build_run, Hp, Hd.
      cbn. eauto.
    + unfold loadFixtures. rewrite run_get, Hc, run_bind, list_build_run, Hp.
      cbn. eauto.
Qed.

(** A setup with no selection, whatever happens: the bulk-creates are
    those of the names in force, in order, up to the load that throws if
    one does; the directory is listed by the first load only. *)
Lemma setup_all_outcome (w : World) (s : State) :
  List.filter is_readdir (r_trace (setupFixtures w SelAbsent s)) =
    listing_events s /\
  created (r_trace (setupFixtures w SelAbsent s))
    `prefix_of` default [] (names_in_force w s) /\
  (r_out (setupFixtures w SelAbsent s) = inr tt ->
   created (r_trace (setupFixtures w SelAbsent s)) =
   default [] (names_in_force w s)) /\
  (list_ready w s = true ->
   fixtureNames (r_state (setupFixtures w SelAbsent s)) = names_in_force w s).
Proof.
  assert (Hcached : forall s0 : State, is_Some (cachedFixtures s0) ->
    List.filter is_readdir (r_trace (setupFixtures w SelAbsent s0)) = [] /\
    created (r_trace (setupFixtures w SelAbsent s0))
      `prefix_of` default [] (fixtureNames s0) /\
    (r_out (setupFixtures w SelAbsent s0) = inr tt ->
     created (r_trace (setupFixtures w SelAbsent s0)) =
     default [] (fixtureNames s0)) /\
    fixtureNames (r_state (setupFixtures w SelAbsent s0)) = fixtureNames s0).
  { intros s0 H0. split; [|split; [|split]].
    1-3: cbn [setupFixtures]; rewrite loadFixtures_cached by exact H0;
      apply loads_outcome.
    pose proof (fixture_list_kept (fixtureNames s0) [(w, OpSetup SelAbsent)]
                  s0 H0 eq_refl) as [[_ Hn] _].
    exact Hn. }
  unfold names_in_force, listing_events, list_ready.
  destruct (cachedFixtures s) as [c|] eqn:Hc.
  - destruct (Hcached s) as (H1 & H2 & H3 & H4); [rewrite Hc; eauto|].
    repeat split; auto.
  - cbn [setupFixtures].
    destruct (fixturePath s) as [p|] eqn:Hp;
      [destruct (dirs w !! p) as [entries|] eqn:Hd|].
    + rewrite (loadFixtures_fresh w _ _ s p entries Hc Hp Hd).
      cbn [r_state r_trace r_out List.filter is_readdir created fmap
           option_fmap option_map default from_option id].
      destruct (Hcached (primed (fixtureList entries) s))
        as (H1 & H2 & H3 & H4); [cbn; eauto|].
      cbn [setupFixtures] in H1, H2, H3, H4.
      rewrite H1. repeat split; auto.
    + unfold loadFixtures. rewrite run_get, Hc, run_bind, list_build_run, Hp, Hd.
      cbn. repeat split; try discriminate. apply prefix_nil.
    + unfold loadFixtures. rewrite run_get, Hc, run_bind, list_build_run, Hp.
      cbn. repeat split; try discriminate. apply prefix_nil.
Qed.

(** C3, as amended — every invocation of [setupFixtures] with no
    selection issues the bulk-creates of the stored fixture list, name by
    name in list order: all of them when the call returns, those of an
    initial part of the list when it ends in an exception.  That list is
    built from the fixtures directory, as it is at that moment, by the
    first load of the process only, which is the one call that lists the
    directory; it is stored, and no later operation changes it or lists
    the directory again, whatever the directory then holds. *)
Theorem C3_fixture_list_fixed_at_first_load (w : World) (s : State) :
  created (r_trace (setupFixtures w SelAbsent s))
    `prefix_of` default [] (names_in_force w s) /\
  (r_out (setupFixtures w SelAbsent s) = inr tt ->
   created (r_trace (setupFixtures w SelAbsent s)) =
   default [] (names_in_force w s)) /\
  List.filter is_readdir (r_trace (setupFixtures w SelAbsent s)) =
    listing_events s /\
  (list_ready w s = true ->
   fixtureNames (r_state (setupFixtures w SelAbsent s)) = names_in_force w s) /\
  forall (ops : list (World * Op)) (w' : World),
    names_in_force w' (run_ops ops (r_state (setupFixtures w SelAbsent s))).1 =
      fixtureNames (r_state (setupFixtures w SelAbsent s)) /\
    List.filter is_readdir
      (run_ops ops (r_state (setupFixtures w SelAbsent s))).2 = [].
Proof.
  destruct (setup_all_outcome w s) as (Hrd & Hpre & Hall & Hn).
  split; [exact Hpre|]. split; [exact Hall|]. split; [exact Hrd|].
  split; [exact Hn|].
  intros ops w'.
  destruct (fixture_list_kept
              (fixtureNames (r_state (setupFixtures w SelAbsent s))) ops
              (r_state (setupFixtures w SelAbsent s))
              (setup_cache_exists w SelAbsent s) eq_refl)
    as [[[c' Hc'] Hn'] Hquiet].
  split; [|apply filter_none, Hquiet].
  unfold names_in_force at 1. rewrite Hc'. exact Hn'.
Qed.

(** A first load in the sample host, then any later life of the process:
    the list in force stays the one of that first load. *)
Lemma C3_witness :
  created (r_trace (setupFixtures two_fixtures SelAbsent started)) =
    ["users"; "roles"] /\
  List.filter is_readdir (r_trace (setupFixtures two_fixtures SelAbsent started)) =
    [EvReaddir sample_path] /\
  forall (ops : list (World * Op)) (w' : World),
    names_in_force w' (run_ops ops loaded).1 = Some ["users"; "roles"] /\
    List.filter is_readdir (run_ops ops loaded).2 = [].
Proof.
  destruct (C3_fixture_list_fixed_at_first_load two_fixtures started)
    as (_ & Hall & Hrd & Hn & Hlater).
  split; [exact (Hall eq_refl)|]. split; [exact Hrd|].
  intros ops w'. destruct (Hlater ops w') as [Hnames Hquiet].
  split; [|exact Hquiet].
  unfold loaded. rewrite Hnames. exact (Hn eq_refl).
Defined.

(** C3, as stated, fails: a second no-selection [setupFixtures], made
    after [roles.json] has appeared in the directory and with a [roles]
    model registered, inserts nothing for [roles]. *)
Lemma C3_counterexample :
  fixtureList ["users.json"; "roles.json"; "notes.txt"] = ["users"; "roles"] /\
  registered loaded_one "roles" = true /\
  created (r_trace (setupFixtures two_fixtures SelAbsent loaded_one)) = ["users"] /\
  created (r_trace (setupFixtures two_fixtures SelAbsent loaded_one)) <>
    fixtureList ["users.json"; "roles.json"; "notes.txt"].
Proof.
  repeat split; try reflexivity. vm_compute. discriminate.
Qed.

(** ** The cache *)


(** One load, in full: the cache it leaves and what it does. *)
Lemma loadFixture_effect (w : World) (s : State) (c : gmap string JsVal)
    (n : string) :
  cachedFixtures s = Some c ->
  loadable w s n = true ->
  cachedFixtures (r_state (loadFixture w n s)) =
    Some (if truthy (cache_get c n) then c
          else <[n := fixture_data w s n]> c) /\
  models (r_state (loadFixture w n s)) = models s /\
  r_trace (loadFixture w n s) =
    (if truthy (cache_get c n) then [] else [EvRequire (fixtureFile s n) n]) ++
    (if registered s n then [EvCreate n (fixture_data w s n)] else []).
Proof.
  intros Hc Hload. unfold loadable, fixture_data, registered in *.
  rewrite Hc in *. cbn [default from_option id] in *.
  unfold loadFixture. rewrite run_get, Hc.
  destruct (truthy (cache_get c n)) eqn:Ht.
  - rewrite bind_ret_l, run_get.
    destruct (models s) as [ms|] eqn:Hms;
      [|split; [exact Hc | split; [exact Hms | reflexivity]]].
    destruct (ms !! n);
      [|split; [exact Hc | split; [exact Hms | reflexivity]]].
    rewrite Hc. split; [exact Hc | split; [exact Hms | reflexivity]].
  - cbn [orb] in Hload.
    destruct (addToCache_run w n s c Hc)
      as (s1 & (V1 & _) & _ & Hadd).
    destruct (resolve w s (fixtureFile s n)) as [d|] eqn:Hres;
      [|discriminate].
    rewrite run_bind, Hadd. cbn [r_out r_state r_trace].
    rewrite run_get.
    cbn [set_cachedFixtures models cachedFixtures r_state r_trace
         default from_option id].
    rewrite V1.
    destruct (models s) as [ms|];
      [|split; [reflexivity | split; [exact V1 | reflexivity]]].
    destruct (ms !! n);
      [|split; [reflexivity | split; [exact V1 | reflexivity]]].
    rewrite cache_get_insert.
    split; [reflexivity | split; [exact V1 | reflexivity]].
Qed.




(** ** Load failures *)

(** C8, as amended — when no model is registered under the exact fixture
    name, the load ends in a synchronous exception (a [TypeError] from the
    property access, if the fixture's content could be had) and its
    completion callback is never invoked; when the model is registered and
    its bulk-create reports an error, the load passes that very error,
    unwrapped, to its completion callback. *)
Theorem C8_load_failure_paths (w : World) (s : State) (n : string) :
  (registered s n = false -> exists exn, r_out (loadFixture w n s) = inl exn) /\
  (forall c, cachedFixtures s = Some c -> loadable w s n = true ->
     registered s n = false ->
     r_out (loadFixture w n s) =
     inl (TypeError "cannot read properties of undefined (reading 'create')")
     \/ models s = None) /\
  (forall c ms model,
     cachedFixtures s = Some c -> models s = Some ms -> ms !! n = Some model ->
     loadable w s n = true ->
     r_out (loadFixture w n s) =
     inr (create model (fixture_data w s n), mret tt)).
Proof.
  split; [|split].
  - intros Hreg. unfold registered in Hreg. unfold loadFixture.
    rewrite run_get. destruct (cachedFixtures s) as [c|] eqn:Hc; [|eauto].
    destruct (truthy (cache_get c n)).
    + rewrite bind_ret_l, run_get.
      destruct (models s) as [ms|]; [|eauto].
      destruct (ms !! n); [discriminate | eauto].
    + destruct (addToCache_run w n s c Hc) as (s1 & (V1 & _) & _ & Hadd).
      rewrite run_bind.
      destruct (resolve w s (fixtureFile s n)) as [d|].
      * rewrite Hadd. cbn [r_out r_state r_trace]. rewrite run_get.
        cbn [set_cachedFixtures models r_out]. rewrite V1.
        destruct (models s) as [ms|]; [|eauto].
        destruct (ms !! n); [discriminate | eauto].
      * destruct Hadd as [e ->]. cbn [r_out]. eauto.
  - intros c Hc Hload Hreg. unfold registered in Hreg.
    destruct (models s) as [ms|] eqn:Hms; [left | right; reflexivity].
    unfold loadable in Hload. rewrite Hc in Hload.
    cbn [default from_option id] in Hload.
    unfold loadFixture. rewrite run_get, Hc.
    destruct (truthy (cache_get c n)).
    + rewrite bind_ret_l, run_get, Hms.
      destruct (ms !! n); [discriminate | reflexivity].
    + cbn [orb] in Hload.
      destruct (addToCache_run w n s c Hc) as (s1 & (V1 & _) & _ & Hadd).
      destruct (resolve w s (fixtureFile s n)) as [d|] eqn:Hres;
        [|discriminate].
      rewrite run_bind, Hadd. cbn [r_out r_state r_trace]. rewrite run_get.
      cbn [set_cachedFixtures models r_out].
      rewrite V1, Hms. destruct (ms !! n); [discriminate | reflexivity].
  - intros c ms model Hc Hms Hmodel Hload.
    destruct (loadFixture_run w s s n) as (s1 & t & Hrun & _).
    + apply setup_inv_refl. rewrite Hc. eauto.
    + unfold registered. rewrite Hms, Hmodel. reflexivity.
    + exact Hload.
    + rewrite Hrun. cbn [r_out]. unfold load_result. rewrite Hms, Hmodel.
      reflexivity.
Qed.

(** C8 on the sample host: no [ghost] model, so the load throws; a
    rejecting [users] model, so the load reports the insert error as it
    is. *)
Lemma C8_witness :
  (exists exn, r_out (loadFixture ghost_world "ghost" loaded) = inl exn) /\
  r_out (loadFixture two_fixtures "users" (primed ["users"; "roles"] strict)) =
    inr (Some (MkError "insert failed"), mret tt).
Proof.
  split.
  - exact (proj1 (C8_load_failure_paths ghost_world loaded "ghost") eq_refl).
  - exact (proj2 (proj2 (C8_load_failure_paths two_fixtures
                           (primed ["users"; "roles"] strict) "users"))
             ∅ (app_models one_rejecting) rejecting eq_refl eq_refl eq_refl eq_refl).
Defined.

(** C8, as stated, fails: with a fixture file [ghost.json] and no model
    registered under [ghost], the load does not reach its completion
    callback with an error; it throws. *)
Lemma C8_counterexample :
  registered loaded "ghost" = false /\
  r_out (loadFixture ghost_world "ghost" loaded) =
    inl (TypeError "cannot read properties of undefined (reading 'create')") /\
  ~ (exists e post,
       r_out (loadFixture ghost_world "ghost" loaded) = inr (Some e, post)).
Proof.
  split; [reflexivity|]. split; [reflexivity|].
  intros (e & post & H). vm_compute in H. discriminate H.
Qed.

(** ** Initialisation *)

Lemma init_unfold (w : World) (app : App) (options : Options) (s : State) :
  init w app options s =
  if startup_gate w app (merge (defaults s) options)
  then loadFixtures w None startupCallback (configured w app options s)
  else mkRes (configured w app options s) [] (inr tt).
Proof.
  unfold init. rewrite run_modify, run_get, run_modify, run_modify.
  unfold startup_gate, configured. cbn [set_models defaults].
  destruct (env_match _ _); [|reflexivity].
  destruct (loadFixturesOnStartup _); reflexivity.
Qed.

(** Loading never writes to the configuration. *)
Lemma loadFixtures_config (w : World) (fixtures : option (list string))
    (s : State) (cfg : Config) :
  config s = Some cfg -> defaults s = cfg ->
  config (r_state (loadFixtures w fixtures startupCallback s)) = Some cfg /\
  defaults (r_state (loadFixtures w fixtures startupCallback s)) = cfg.
Proof.
  intros Hc Hd.
  apply (loadFixtures_keeps
           (fun s' => config s' = Some cfg /\ defaults s' = cfg)
           (fun _ => True)); auto.
  - intros s0 s1 (_ & _ & _ & _ & H5 & H6) [H1 H2]. rewrite H5, H6. auto.
  - intros e. apply startupCallback_keeps.
Qed.

Lemma init_config (w : World) (app : App) (options : Options) (s : State) :
  config (r_state (init w app options s)) = Some (merge (defaults s) options) /\
  defaults (r_state (init w app options s)) = merge (defaults s) options.
Proof.
  rewrite init_unfold. destruct (startup_gate _ _ _).
  - apply loadFixtures_config; reflexivity.
  - split; reflexivity.
Qed.

(** C10 — [init] merges the options into the module-level [defaults]
    object itself: after an initialisation with options [o], [defaults]
    holds [o]'s values (and [config] is that object), so a second
    initialisation that omits an option sees the value the first call
    gave it, not the documented default. *)
Theorem C10_defaults_merged_in_place (w : World) (app : App) (options : Options)
    (s : State) :
  defaults (r_state (init w app options s)) = merge (defaults s) options /\
  config (r_state (init w app options s)) = Some (merge (defaults s) options) /\
  forall (w2 : World) (app2 : App) (options2 : Options),
    let cfg2 := config (r_state (init w2 app2 options2
                                   (r_state (init w app options s)))) in
    cfg2 = Some (merge (merge (defaults s) options) options2) /\
    (forall v, o_loadFixturesOnStartup options = Some v ->
               o_loadFixturesOnStartup options2 = None ->
               loadFixturesOnStartup <$> cfg2 = Some v) /\
    (forall v, o_errorOnSetupFailure options = Some v ->
               o_errorOnSetupFailure options2 = None ->
               errorOnSetupFailure <$> cfg2 = Some v) /\
    (forall v, o_environments options = Some v ->
               o_environments options2 = None ->
               environments <$> cfg2 = Some v) /\
    (forall v, o_fixturesPath options = Some v ->
               o_fixturesPath options2 = None ->
               fixturesPath <$> cfg2 = Some v).
Proof.
  destruct (init_config w app options s) as [Hc Hd].
  split; [exact Hd|]. split; [exact Hc|].
  intros w2 app2 options2 cfg2.
  assert (Hcfg2 : cfg2 = Some (merge (merge (defaults s) options) options2)).
  { unfold cfg2. rewrite (proj1 (init_config w2 app2 options2 _)), Hd.
    reflexivity. }
  split; [exact Hcfg2|]. rewrite Hcfg2.
  repeat split; intros v H1 H2; cbn; rewrite H2, H1; reflexivity.
Qed.

(** C10 on the sample host: [errorOnSetupFailure] set by a first
    initialisation is still on after a second one that does not mention
    it, although its documented default is off. *)
Lemma C10_witness :
  errorOnSetupFailure <$>
    config (r_state (init two_fixtures two_models no_options
                       (r_state (init two_fixtures one_rejecting strict_options
                                   initial_state)))) = Some true /\
  errorOnSetupFailure initial_defaults = false.
Proof.
  split; [|reflexivity].
  exact (proj1 (proj2 (proj2 (proj2 (proj2
           (C10_defaults_merged_in_place two_fixtures one_rejecting
              strict_options initial_state))
           two_fixtures two_models no_options)))
         true eq_refl eq_refl).
Defined.

Lemma loadFixtures_cache_stays (w : World) (fixtures : option (list string))
    (s : State) :
  is_Some (cachedFixtures s) ->
  is_Some (cachedFixtures (r_state (loadFixtures w fixtures startupCallback s))).
Proof.
  intros Hc.
  apply (loadFixtures_keeps (fun s' => is_Some (cachedFixtures s'))
                            (fun _ => True)); auto.
  - intros s0 s1 (_ & _ & _ & H4 & _) H. rewrite H4. exact H.
  - intros e. apply startupCallback_keeps.
Qed.

(** A load leaves a cache object behind, even when it throws. *)
Lemma loadFixtures_cache_exists (w : World) (fixtures : option (list string))
    (s : State) :
  is_Some (cachedFixtures (r_state (loadFixtures w fixtures startupCallback s))).
Proof.
  destruct (cachedFixtures s) as [c|] eqn:Hc.
  - apply loadFixtures_cache_stays. rewrite Hc. eauto.
  - destruct (fixturePath s) as [p|] eqn:Hp;
      [destruct (dirs w !! p) as [entries|] eqn:Hd|].
    + rewrite (loadFixtures_fresh w fixtures _ s p entries Hc Hp Hd).
      cbn [r_state]. apply loadFixtures_cache_stays. cbn. eauto.
    + unfold loadFixtures. rewrite run_get, Hc, run_bind, list_build_run, Hp, Hd.
      cbn. eauto.
    + unfold loadFixtures. rewrite run_get, Hc, run_bind, list_build_run, Hp.
      cbn. eauto.
Qed.

Lemma startupCallback_quiet (cfg : Config) (e : option JsError) (s : State) :
  config s = Some cfg ->
  e = None \/ errorOnSetupFailure cfg = false ->
  startupCallback e s = mkRes s [] (inr tt).
Proof.
  intros Hcfg He. destruct e as [err|]; [|reflexivity].
  destruct He as [He|He]; [discriminate|].
  unfold startupCallback. rewrite run_get, Hcfg, He. reflexivity.
Qed.

Lemma env_match_list (names : list string) (e : option string) :
  env_match (EnvList names) e = true <-> exists x, e = Some x /\ x ∈ names.
Proof.
  destruct e as [x|]; cbn [env_match].
  - rewrite bool_decide_eq_true. split; [eauto|].
    intros (y & Hy & Hin). congruence.
  - split; [discriminate|]. intros (y & Hy & _). discriminate.
Qed.

Lemma env_match_scalar (name : string) (e : option string) :
  env_match (EnvScalar name) e = true <-> e = Some name.
Proof.
  destruct e as [x|]; cbn [env_match].
  - rewrite String.eqb_eq. split; congruence.
  - split; discriminate.
Qed.

(** C6 — [init] performs the startup load of all fixtures if and only if
    the active environment matches the configured environments
    (membership for a list, equality for a scalar) and
    [loadFixturesOnStartup] is set.  When the gate is closed, and in
    particular when the environment does not match though
    [loadFixturesOnStartup] is true, [init] does nothing to the outside
    and leaves cache and fixture list alone; when it is open, [init] is
    the load of the whole fixture list, which in a process that has not
    loaded yet creates the cache and, where nothing fails, issues a
    bulk-create for every fixture of the directory. *)
Theorem C6_startup_gate (w : World) (app : App) (options : Options) (s : State) :
  let cfg := merge (defaults s) options in
  let r := init w app options s in
  (startup_gate w app cfg = true <->
   env_match (environments cfg) (environment w app) = true /\
   loadFixturesOnStartup cfg = true) /\
  (forall names e,
     env_match (EnvList names) e = true <-> exists x, e = Some x /\ x ∈ names) /\
  (forall name e, env_match (EnvScalar name) e = true <-> e = Some name) /\
  (startup_gate w app cfg = false ->
   r_trace r = [] /\ r_out r = inr tt /\
   cachedFixtures (r_state r) = cachedFixtures s /\
   fixtureNames (r_state r) = fixtureNames s) /\
  (startup_gate w app cfg = true ->
   r = loadFixtures w None startupCallback (configured w app options s)) /\
  (cachedFixtures s = None ->
   (is_Some (cachedFixtures (r_state r)) <-> startup_gate w app cfg = true)) /\
  (forall entries,
     startup_gate w app cfg = true ->
     cachedFixtures s = None ->
     dirs w !! path_join w (appRoot w) (fixturesPath cfg) = Some entries ->
     (forall n, n ∈ fixtureList entries ->
        registered (configured w app options s) n = true /\
        loadable w (configured w app options s) n = true) ->
     first_error (load_result w (configured w app options s))
                 (fixtureList entries) = None
     \/ errorOnSetupFailure cfg = false ->
     r_out r = inr tt /\ created (r_trace r) = fixtureList entries).
Proof.
  intros cfg r. unfold r. rewrite init_unfold. fold cfg.
  split; [apply andb_true_iff|].
  split; [apply env_match_list|].
  split; [apply env_match_scalar|].
  split; [|split; [|split]].
  - intros ->. repeat split; reflexivity.
  - intros ->. reflexivity.
  - intros Hc. destruct (startup_gate w app cfg).
    + split; [reflexivity|]. intros _. apply loadFixtures_cache_exists.
    + cbn [r_state configured set_fixturePath set_config set_models cachedFixtures].
      rewrite Hc. split; [intros [? ?]; discriminate | discriminate].
  - intros entries -> Hc Hd Hok Hquiet.
    set (s0 := configured w app options s) in *.
    assert (Hcfg0 : config s0 = Some cfg) by reflexivity.
    assert (Hc0 : cachedFixtures s0 = None) by exact Hc.
    assert (Hp0 : fixturePath s0 =
                  Some (path_join w (appRoot w) (fixturesPath cfg)))
      by reflexivity.
    assert (Hnames : load_names w s0 None = fixtureList entries).
    { unfold load_names, names_in_force. rewrite Hc0, Hp0, Hd. reflexivity. }
    destruct (loadFixtures_exact w None startupCallback [] s0 cfg Hcfg0)
      as (s1 & t1 & t2 & -> & Ht & _).
    + unfold list_ready. rewrite Hc0, Hp0, Hd. reflexivity.
    + rewrite Hnames. exact Hok.
    + intros s' Hcfg'. apply (startupCallback_quiet cfg); [exact Hcfg'|].
      rewrite Hnames. exact Hquiet.
    + split; [reflexivity|]. cbn [r_trace List.app].
      rewrite created_app, created_listing. cbn [List.app].
      rewrite <- created_without_requires, Ht, Hnames.
      apply created_create_events.
Qed.

(** C6 on the sample host: environments [["test"; "staging"]] and
    [loadFixturesOnStartup] on; active environment ["dev"], so nothing is
    loaded at startup. *)
Lemma C6_witness :
  (r_trace (init two_fixtures dev_app staging_options initial_state) = [] /\
   r_out (init two_fixtures dev_app staging_options initial_state) = inr tt /\
   cachedFixtures
     (r_state (init two_fixtures dev_app staging_options initial_state)) = None /\
   fixtureNames
     (r_state (init two_fixtures dev_app staging_options initial_state)) = None) /\
  (r_out (init two_fixtures two_models staging_options initial_state) = inr tt /\
   created (r_trace (init two_fixtures two_models staging_options initial_state))
     = ["users"; "roles"]).
Proof.
  split.
  - exact (proj1 (proj2 (proj2 (proj2
             (C6_startup_gate two_fixtures dev_app staging_options
                initial_state)))) eq_refl).
  - refine (proj2 (proj2 (proj2 (proj2 (proj2 (proj2
              (C6_startup_gate two_fixtures two_models staging_options
                 initial_state))))))
              ["users.json"; "roles.json"; "notes.txt"] eq_refl eq_refl eq_refl
              _ (or_introl eq_refl)).
    intros n Hn. vm_compute in Hn.
    apply elem_of_cons in Hn as [->|Hn]; [split; reflexivity|].
    apply elem_of_cons in Hn as [->|Hn]; [split; reflexivity|].
    inversion Hn.
Defined.

(** ** Selections given as lists *)

(** C1, on the code — a list-valued selection is not honoured: both
    operations test [typeof select !== 'string'] first, so an array takes
    the no-selection path.  [setupFixtures(["users"])] in a directory
    holding [users.json] and [roles.json] inserts both fixtures, where
    [setupFixtures("users")] inserts [users] only, and
    [teardownFixtures(["users"])] re-synchronises [roles] as well. *)
Theorem C1_list_selection_takes_all_path :
  (forall w names s,
     setupFixtures w (SelList names) s = setupFixtures w SelAbsent s) /\
  (forall w app names s,
     teardownFixtures w app (SelList names) s =
     teardownFixtures w app SelAbsent s) /\
  created (r_trace (setupFixtures two_fixtures (SelList ["users"]) started)) =
    ["users"; "roles"] /\
  created (r_trace (setupFixtures two_fixtures (SelString "users") started)) =
    ["users"] /\
  automigrations
    (r_trace (teardownFixtures two_fixtures two_models (SelList ["users"])
                loaded)) =
    selected_migrations two_fixtures two_models ["users"; "roles"] /\
  automigrations
    (r_trace (teardownFixtures two_fixtures two_models (SelString "users")
                loaded)) =
    selected_migrations two_fixtures two_models ["users"].
Proof.
  split; [reflexivity|]. split; [reflexivity|].
  repeat split; vm_compute; reflexivity.
Qed.

(** ** Fixture names *)

Lemma fixtureList_elem (entries : list string) (n : string) :
  n ∈ fixtureList entries <->
  exists f, f ∈ entries /\ JsString.ends_with ".json" f = true /\
            n = JsString.replace ".json" "" f.
Proof.
  unfold fixtureList. rewrite list_elem_of_In, in_map_iff. split.
  - intros (f & <- & Hf). apply filter_In in Hf as [Hin Hend].
    exists f. rewrite list_elem_of_In. auto.
  - intros (f & Hin & Hend & ->). exists f. split; [reflexivity|].
    apply filter_In. rewrite <- list_elem_of_In. auto.
Qed.

Lemma ends_with_append (stem suf : string) :
  JsString.ends_with suf (stem +:+ suf) = true.
Proof.
  induction stem as [|c stem IH].
  - change ("" +:+ suf) with suf.
    destruct suf; cbn [JsString.ends_with]; rewrite String.eqb_refl; reflexivity.
  - change (String c stem +:+ suf) with (String c (stem +:+ suf)).
    cbn [JsString.ends_with].
    destruct (String.eqb (String c (stem +:+ suf)) suf); [reflexivity | exact IH].
Qed.

(** For a stem without a dot, removing the first [".json"] is removing
    the extension. *)
Lemma replace_dotless (stem : string) :
  dotless stem = true ->
  JsString.replace ".json" "" (stem +:+ ".json") = stem.
Proof.
  induction stem as [|c stem IH]; [reflexivity|].
  cbn [dotless]. intros H. apply andb_true_iff in H as [Hc Hs].
  apply negb_true_iff, Ascii.eqb_neq in Hc.
  change (String c stem +:+ ".json") with (String c (stem +:+ ".json")).
  cbn [JsString.replace String.prefix].
  destruct (ascii_dec "." c) as [Heq|_]; [congruence|].
  rewrite IH by exact Hs. reflexivity.
Qed.

(** C9, on the code — the name is derived with
    [fileName.replace('.json', '')], which removes the first occurrence of
    [".json"], not the trailing one: the entry [a.json.b.json] passes the
    [/\.json$/] filter and becomes [a.b.json], where stripping the final
    extension gives [a.json.b]; no file answers to the derived name, so
    loading the listed fixture throws. *)
Theorem C9_first_occurrence_is_removed :
  fixtureList ["users.json"; "a.json.b.json"; "notes.txt"] = ["users"; "a.b.json"] /\
  JsString.strip_suffix ".json" "a.json.b.json" = "a.json.b" /\
  r_out (setupFixtures nested_extension SelAbsent started) =
    inl (ModuleNotFound (sample_path +:+ "a.b.json")).
Proof. repeat split; vm_compute; reflexivity. Qed.

(** * Further properties of the module *)

(** ** Parsing a selection *)

Lemma append_assoc (a b c : string) : (a +:+ b) +:+ c = a +:+ (b +:+ c).
Proof.
  induction a as [|x a IH]; [reflexivity|].
  change (String x ((a +:+ b) +:+ c) = String x (a +:+ (b +:+ c))).
  rewrite IH. reflexivity.
Qed.

Lemma rev_app_append (cur t : string) :
  String.rev_app cur t = String.rev_app cur "" +:+ t.
Proof.
  revert t. induction cur as [|a cur IH]; intros t; [reflexivity|].
  cbn [String.rev_app]. rewrite (IH (String a t)), (IH (String a "")).
  rewrite append_assoc. reflexivity.
Qed.

Lemma split_aux_cons (c : ascii) (cur s : string) :
  exists p ps, JsString.split_aux c cur s = p :: ps.
Proof.
  revert cur. induction s as [|a s IH]; intros cur; cbn [JsString.split_aux].
  - eauto.
  - destruct (Ascii.eqb a c); eauto.
Qed.

Lemma concat_split_aux (c : ascii) (cur s : string) :
  String.concat (String c "") (JsString.split_aux c cur s) =
  String.rev_app cur s.
Proof.
  revert cur. induction s as [|a s IH]; intros cur; cbn [JsString.split_aux].
  - reflexivity.
  - destruct (Ascii.eqb_spec a c) as [->|Hne].
    + destruct (split_aux_cons c "" s) as (p & ps & Hs).
      cbn [String.concat]. rewrite Hs, <- Hs, IH. cbn [String.rev_app].
      rewrite (rev_app_append cur (String c s)). reflexivity.
    + rewrite IH. reflexivity.
Qed.

Lemma count_char_rev_app (c : ascii) (cur t : string) :
  count_char c (String.rev_app cur t) = count_char c cur + count_char c t.
Proof.
  revert t. induction cur as [|a cur IH]; intros t; [reflexivity|].
  cbn [String.rev_app count_char]. rewrite IH. cbn [count_char]. lia.
Qed.

Lemma split_aux_fields (c : ascii) (cur s : string) :
  count_char c cur = 0 ->
  Forall (fun p => count_char c p = 0) (JsString.split_aux c cur s).
Proof.
  revert cur. induction s as [|a s IH]; intros cur Hcur; cbn [JsString.split_aux].
  - repeat constructor. unfold String.rev. rewrite count_char_rev_app, Hcur.
    reflexivity.
  - destruct (Ascii.eqb a c) eqn:Hac.
    + constructor; [|apply IH; reflexivity].
      unfold String.rev. rewrite count_char_rev_app, Hcur. reflexivity.
    + apply IH. cbn [count_char]. rewrite Hac, Hcur. reflexivity.
Qed.

Lemma split_aux_length (c : ascii) (cur s : string) :
  length (JsString.split_aux c cur s) = S (count_char c s).
Proof.
  revert cur. induction s as [|a s IH]; intros cur;
    cbn [JsString.split_aux count_char]; [reflexivity|].
  destruct (Ascii.eqb a c); cbn [length]; rewrite IH; reflexivity.
Qed.

(** X1 — a string selection is cut at every comma and nowhere else: the
    names contain no comma, joined by commas they give the selection
    back, and there is one more name than there are commas; so the empty
    string selects the one fixture named by the empty string, and a
    doubled or trailing comma selects an empty name as well. *)
Theorem X1_selection_fields (str : string) :
  String.concat "," (JsString.split "," str) = str /\
  Forall (fun n => count_char "," n = 0) (JsString.split "," str) /\
  length (JsString.split "," str) = S (count_char "," str) /\
  forall w s, setup_names w s (Some str) = JsString.split "," str.
Proof.
  unfold JsString.split. split; [apply (concat_split_aux "," "" str)|].
  split; [apply split_aux_fields; reflexivity|].
  split; [apply split_aux_length | reflexivity].
Qed.

(** ** From file names to fixture names and back *)

Lemma ends_with_json_split (f : string) :
  JsString.ends_with ".json" f = true -> exists stem, f = stem +:+ ".json".
Proof.
  induction f as [|c f IH]; cbn [JsString.ends_with].
  - discriminate.
  - destruct (String.eqb_spec (String c f) ".json") as [Heq|_].
    + intros _. exists "". exact Heq.
    + intros H. destruct (IH H) as [stem ->]. exists (String c stem). reflexivity.
Qed.

Lemma length_append (a b : string) :
  String.length (a +:+ b) = String.length a + String.length b.
Proof.
  induction a as [|x a IH]; [reflexivity|].
  change (S (String.length (a +:+ b)) = S (String.length a + String.length b)).
  rewrite IH. reflexivity.
Qed.

Lemma substring_append (a b : string) :
  String.substring 0 (String.length a) (a +:+ b) = a.
Proof.
  induction a as [|x a IH].
  - destruct b; reflexivity.
  - change (String x (String.substring 0 (String.length a) (a +:+ b)) =
            String x a).
    rewrite IH. reflexivity.
Qed.

Lemma strip_suffix_append (stem suf : string) :
  JsString.strip_suffix suf (stem +:+ suf) = stem.
Proof.
  unfold JsString.strip_suffix. rewrite ends_with_append, length_append.
  replace (String.length stem + String.length suf - String.length suf)
    with (String.length stem) by lia.
  apply substring_append.
Qed.

(** X2 — in a directory none of whose data files has a dot before the
    extension, the listed fixture names are the data files' names with
    the final [".json"] removed, in directory order, and each name
    followed by [".json"] is the file it came from; entries without the
    extension contribute nothing. *)
Theorem X2_plain_names_strip_extension (entries : list string) :
  plain_data_files entries = true ->
  fixtureList entries =
    map (JsString.strip_suffix ".json")
        (List.filter (JsString.ends_with ".json") entries) /\
  map (fun n => n +:+ ".json") (fixtureList entries) =
    List.filter (JsString.ends_with ".json") entries.
Proof.
  unfold fixtureList, plain_data_files.
  induction entries as [|f entries IH]; intros Hd.
  - split; reflexivity.
  - cbn [List.filter] in *.
    destruct (JsString.ends_with ".json" f) eqn:Hf; [|exact (IH Hd)].
    cbn [forallb] in Hd. apply andb_true_iff in Hd as [Hstem Hrest].
    destruct (IH Hrest) as [IH1 IH2].
    destruct (ends_with_json_split f Hf) as [stem ->].
    rewrite strip_suffix_append in Hstem.
    cbn [map]. rewrite strip_suffix_append, replace_dotless by exact Hstem.
    split; [rewrite IH1 | rewrite IH2]; reflexivity.
Qed.

Lemma X2_witness :
  fixtureList ["users.json"; "notes.txt"; "roles.json"; ".json"] =
    ["users"; "roles"; ""] /\
  map (fun n => n +:+ ".json")
      (fixtureList ["users.json"; "notes.txt"; "roles.json"; ".json"]) =
    ["users.json"; "roles.json"; ".json"].
Proof.
  exact (X2_plain_names_strip_extension
           ["users.json"; "notes.txt"; "roles.json"; ".json"] eq_refl).
Defined.

(** ** More on teardown *)

Lemma created_requests (l : list (string * option string)) :
  created (map request_event l) = [].
Proof. induction l as [|[ds m] l IH]; [reflexivity|]. exact IH. Qed.

Lemma required_requests (l : list (string * option string)) :
  required (map request_event l) = [].
Proof. induction l as [|[ds m] l IH]; [reflexivity|]. exact IH. Qed.

Lemma readdirs_requests (l : list (string * option string)) :
  List.filter is_readdir (map request_event l) = [].
Proof. induction l as [|[ds m] l IH]; [reflexivity|]. exact IH. Qed.

Lemma required_app (t1 t2 : list Event) :
  required (t1 ++ t2) = required t1 ++ required t2.
Proof.
  induction t1 as [|ev t1 IH]; [reflexivity|].
  destruct ev; simpl; rewrite ?IH; reflexivity.
Qed.

(** X3 — [teardownFixtures] works on the data sources only: it leaves
    the module state as it is (the cache and the stored fixture list
    included, so a later setup behaves as if no teardown had happened),
    and it lists no directory, reads no fixture file and issues no
    bulk-create. *)
Theorem X3_teardown_leaves_module_alone (w : World) (app : App) (sel : Select)
    (s : State) :
  r_state (teardownFixtures w app sel s) = s /\
  created (r_trace (teardownFixtures w app sel s)) = [] /\
  required (r_trace (teardownFixtures w app sel s)) = [] /\
  List.filter is_readdir (r_trace (teardownFixtures w app sel s)) = [] /\
  forall w' sel',
    setupFixtures w' sel' (r_state (teardownFixtures w app sel s)) =
    setupFixtures w' sel' s.
Proof.
  destruct (teardown_exact w app sel s) as (t1 & t2 & Ht & ->).
  cbn [r_state r_trace].
  pose proof (created_requests (teardown_requests w app s (selection_of sel))) as Hc.
  pose proof (required_requests (teardown_requests w app s (selection_of sel))) as Hr.
  pose proof (readdirs_requests (teardown_requests w app s (selection_of sel))) as Hd.
  rewrite <- Ht in Hc, Hr, Hd.
  rewrite created_app in Hc. rewrite required_app in Hr.
  rewrite List.filter_app in Hd.
  apply app_eq_nil in Hc as [Hc1 Hc2]. apply app_eq_nil in Hr as [Hr1 Hr2].
  apply app_eq_nil in Hd as [Hd1 Hd2].
  split; [reflexivity|].
  split; [rewrite created_app, Hc1; exact Hc2|].
  split; [rewrite required_app, Hr1; exact Hr2|].
  split; [rewrite List.filter_app, Hd1; exact Hd2 | reflexivity].
Qed.

Lemma teardown_automigrations (w : World) (app : App) (sel : Select)
    (s : State) :
  automigrations (r_trace (teardownFixtures w app sel s)) =
  teardown_requests w app s (selection_of sel).
Proof.
  destruct (teardown_exact w app sel s) as (t1 & t2 & Ht & ->).
  cbn [r_trace]. rewrite automigrations_app. cbn [automigrations].
  rewrite <- automigrations_app, Ht. apply automigrations_requests.
Qed.

(** X4 — [teardownFixtures] without a selection re-migrates the entire
    model set of every data source only as long as no load has stored a
    fixture list; once one is stored, it re-synchronises the stored
    fixture names instead, each as it is and as the runtime's
    [toLowerCase] returns it, and models without a fixture are no longer
    touched. *)
Theorem X4_teardown_without_selection (w : World) (app : App) (s : State) :
  automigrations (r_trace (teardownFixtures w app SelAbsent s)) =
  match fixtureNames s with
  | None => whole_migrations app
  | Some stored => selected_migrations w app stored
  end.
Proof.
  rewrite teardown_automigrations. unfold teardown_requests.
  destruct (fixtureNames s); reflexivity.
Qed.

Lemma selected_migrations_length (w : World) (app : App)
    (names : list string) :
  length (selected_migrations w app names) =
  length (app_datasources app) * (2 * length names).
Proof.
  unfold selected_migrations, both_cases.
  rewrite <- (length_map fst (app_datasources app)).
  induction (map fst (app_datasources app)) as [|ds l IH]; [reflexivity|].
  cbn [flat_map length]. rewrite length_app, IH, !length_map, length_app, length_map.
  lia.
Qed.

(** X5 — with a stored fixture list, a teardown issues two automigrate
    requests per selected name and data source, one per casing, whatever
    the requests report; where the names are in lower case already (the
    runtime's [toLowerCase] returns each of them as it is), every request
    is issued twice under the same name.  Without a stored list it issues
    one request per data source. *)
Theorem X5_teardown_request_count (w : World) (app : App) (sel : Select)
    (s : State) :
  length (automigrations (r_trace (teardownFixtures w app sel s))) =
    length (app_datasources app) *
    match fixtureNames s with
    | None => 1
    | Some stored =>
        2 * length match selection_of sel with
                   | Some str => JsString.split "," str
                   | None => stored
                   end
    end /\
  forall stored,
    fixtureNames s = Some stored ->
    let names := match selection_of sel with
                 | Some str => JsString.split "," str
                 | None => stored
                 end in
    map (toLowerCase w) names = names ->
    automigrations (r_trace (teardownFixtures w app sel s)) =
    flat_map (fun ds => map (fun m => (ds, Some m)) (names ++ names))
             (map fst (app_datasources app)).
Proof.
  rewrite teardown_automigrations. unfold teardown_requests. split.
  - destruct (fixtureNames s) as [stored|].
    + apply selected_migrations_length.
    + unfold whole_migrations. rewrite !length_map. lia.
  - intros stored -> Hlower.
    unfold selected_migrations, both_cases. rewrite Hlower. reflexivity.
Qed.

Lemma X5_witness :
  automigrations
    (r_trace (teardownFixtures two_fixtures two_models (SelString "users")
                loaded)) =
  [("db", Some "users"); ("db", Some "users");
   ("cache", Some "users"); ("cache", Some "users")].
Proof.
  exact (proj2 (X5_teardown_request_count two_fixtures two_models
                  (SelString "users") loaded)
           ["users"; "roles"] eq_refl eq_refl).
Defined.

(** X6 — a no-selection teardown that follows a setup re-synchronises
    the whole stored fixture list, each name as it is and as the
    runtime's [toLowerCase] returns it, on every data source: exactly the
    fixtures inserted when the setup had no selection, and also fixtures
    the setup did not insert when it had one. *)
Theorem X6_teardown_after_setup (w w' : World) (app : App) (sel : Select)
    (s : State) (cfg : Config) (names : list string) :
  config s = Some cfg ->
  list_ready w s = true ->
  names_in_force w s = Some names ->
  (forall n, n ∈ setup_names w s (selection_of sel) ->
     registered s n = true /\ loadable w s n = true) ->
  created (r_trace (setupFixtures w sel s)) =
    match selection_of sel with
    | Some str => JsString.split "," str
    | None => names
    end /\
  automigrations
    (r_trace (teardownFixtures w' app SelAbsent
                (r_state (setupFixtures w sel s)))) =
  selected_migrations w' app names.
Proof.
  intros Hcfg Hready Hnames Hok.
  destruct (setup_exact w sel s cfg Hcfg Hready Hok)
    as (s1 & t1 & t2 & -> & Ht & Hn & _).
  cbn [r_trace r_state]. split.
  - rewrite !created_app, created_listing. cbn [List.app].
    replace (created (setup_report cfg _ :: t2)) with (created t2).
    + rewrite <- created_app, <- created_without_requires, Ht.
      rewrite created_create_events. unfold setup_names, load_names.
      rewrite Hnames. destruct (selection_of sel); reflexivity.
    + unfold setup_report. destruct (first_error _ _);
        [destruct (errorOnSetupFailure cfg)|]; reflexivity.
  - rewrite teardown_automigrations. unfold teardown_requests.
    cbn [selection_of]. rewrite Hn.
    unfold names_in_force in *. destruct (cachedFixtures s); rewrite Hnames;
      reflexivity.
Qed.

Lemma X6_witness :
  created (r_trace (setupFixtures two_fixtures (SelString "users") started)) =
    ["users"] /\
  automigrations
    (r_trace (teardownFixtures two_fixtures two_models SelAbsent
                (r_state (setupFixtures two_fixtures (SelString "users") started))))
  = selected_migrations two_fixtures two_models ["users"; "roles"].
Proof.
  refine (X6_teardown_after_setup two_fixtures two_fixtures two_models
            (SelString "users") started initial_defaults ["users"; "roles"]
            eq_refl eq_refl eq_refl _).
  intros n Hn.
  apply elem_of_cons in Hn as [->|Hn]; [split; reflexivity|].
  inversion Hn.
Defined.

(** ** A setup that breaks off *)

Lemma loadFixture_unregistered (w : World) (s : State) (n : string) :
  registered s n = false ->
  exists s1 t exn,
    loadFixture w n s = mkRes s1 t (inl exn) /\
    created t = [] /\ callbacks t = [].
Proof.
  intros Hreg. unfold registered in Hreg. unfold loadFixture.
  rewrite run_get. destruct (cachedFixtures s) as [c|] eqn:Hc.
  - destruct (truthy (cache_get c n)).
    + rewrite bind_ret_l, run_get.
      destruct (models s) as [ms|];
        [|do 3 eexists; split; [reflexivity | split; reflexivity]].
      destruct (ms !! n); [discriminate|].
      do 3 eexists; split; [reflexivity | split; reflexivity].
    + destruct (addToCache_run w n s c Hc) as (s1 & (V1 & _) & _ & Hadd).
      rewrite run_bind.
      destruct (resolve w s (fixtureFile s n)) as [d|].
      * rewrite Hadd. cbn [r_out r_state r_trace]. rewrite run_get.
        cbn [set_cachedFixtures models]. rewrite V1.
        destruct (models s) as [ms|];
          [|do 3 eexists; split; [reflexivity | split; reflexivity]].
        destruct (ms !! n); [discriminate|].
        do 3 eexists; split; [reflexivity | split; reflexivity].
      * destruct Hadd as [e ->]. cbn [r_out r_state r_trace].
        do 3 eexists; split; [reflexivity | split; reflexivity].
  - do 3 eexists; split; [reflexivity | split; reflexivity].
Qed.

Lemma each_run_cons {A : Type} (iteratee : A -> M Completion) (x y : A)
    (ys : list A) (s : State) :
  each_run iteratee (x :: y :: ys) s =
  (c ← iteratee x;
   match c.1 with
   | Some err => mret (Some err, (c.2;; each_rest iteratee (y :: ys)))
   | None => c.2;; each_run iteratee (y :: ys)
   end) s.
Proof. reflexivity. Qed.

(** Loads that succeed, then one whose model is missing: the run stops
    there, before its callback. *)
Lemma each_run_abort (w : World) (s0 : State) (pre : list string)
    (bad : string) (post : list string) (s : State) :
  setup_inv w s0 s ->
  (forall n, n ∈ pre ->
     registered s0 n = true /\ loadable w s0 n = true /\
     load_result w s0 n = None) ->
  registered s0 bad = false ->
  exists s1 t exn,
    each_run (loadFixture w) (pre ++ bad :: post) s = mkRes s1 t (inl exn) /\
    created t = pre /\ callbacks t = [].
Proof.
  revert s. induction pre as [|n pre IH]; intros s Hinv Hok Hbad.
  - assert (Hbad' : registered s bad = false).
    { unfold registered in *. destruct Hinv as (-> & _). exact Hbad. }
    destruct (loadFixture_unregistered w s bad Hbad')
      as (s1 & t & exn & Hrun & Hc & Hcb).
    cbn [List.app each_run]. rewrite run_bind, Hrun. cbn [r_out r_state r_trace].
    exists s1, t, exn. auto.
  - destruct (Hok n) as (Hreg & Hload & Hres); [left|].
    destruct (loadFixture_run w s0 s n Hinv Hreg Hload)
      as (s1 & t & Hrun & Hinv1 & Ht).
    destruct (IH s1 Hinv1) as (s2 & t' & exn & Hrest & Hc & Hcb).
    { intros x Hx. apply Hok. right; exact Hx. }
    { exact Hbad. }
    assert (Hcons : exists y ys, pre ++ bad :: post = y :: ys).
    { destruct pre; cbn; eauto. }
    destruct Hcons as (y & ys & Hcons).
    cbn [List.app]. rewrite Hcons in *. rewrite each_run_cons.
    rewrite run_bind, Hrun, Hres. cbn [r_out r_state r_trace fst snd].
    rewrite bind_ret_l, Hrest. cbn [r_out r_state r_trace].
    exists s2, (t ++ t'), exn. split; [reflexivity|].
    rewrite created_app, callbacks_app, Hc, Hcb.
    rewrite <- (created_without_requires t), <- (callbacks_without_requires t), Ht.
    split; reflexivity.
Qed.

Lemma loadFixtures_abort (w : World) (fixtures : option (list string))
    (cb : option JsError -> M unit) (s : State) (pre : list string)
    (bad : string) (post : list string) :
  list_ready w s = true ->
  load_names w s fixtures = pre ++ bad :: post ->
  (forall n, n ∈ pre ->
     registered s n = true /\ loadable w s n = true /\
     load_result w s n = None) ->
  registered s bad = false ->
  exists s1 t exn,
    loadFixtures w fixtures cb s = mkRes s1 t (inl exn) /\
    created t = pre /\ callbacks t = [].
Proof.
  intros Hready Hnames Hok Hbad. unfold list_ready in Hready.
  destruct (cachedFixtures s) as [c|] eqn:Hc.
  - rewrite loadFixtures_cached by (rewrite Hc; eauto).
    assert (Hcoll : default [] match fixtures with
                               | Some l => Some l
                               | None => fixtureNames s
                               end = pre ++ bad :: post).
    { rewrite <- Hnames. unfold load_names, names_in_force. rewrite Hc.
      destruct fixtures; reflexivity. }
    destruct (each_run_abort w s pre bad post s) as (s1 & t & exn & Hrun & Hcr & Hcb);
      auto.
    { apply setup_inv_refl. rewrite Hc. eauto. }
    unfold async_each. rewrite Hcoll, run_bind, Hrun. cbn [r_out r_state r_trace].
    exists s1, t, exn. auto.
  - destruct (fixturePath s) as [p|] eqn:Hp; [|discriminate].
    apply bool_decide_eq_true in Hready. destruct Hready as [entries Hd].
    rewrite (loadFixtures_fresh w _ cb s p entries Hc Hp Hd).
    rewrite loadFixtures_cached by (cbn; eauto).
    set (s' := primed (fixtureList entries) s).
    assert (Hcoll : default [] match fixtures with
                               | Some l => Some l
                               | None => fixtureNames s'
                               end = pre ++ bad :: post).
    { rewrite <- Hnames. unfold load_names, names_in_force. rewrite Hc, Hp, Hd.
      destruct fixtures; reflexivity. }
    destruct (each_run_abort w s' pre bad post s')
      as (s1 & t & exn & Hrun & Hcr & Hcb).
    { apply setup_inv_refl. cbn. eauto. }
    { intros n Hn. unfold s'.
      rewrite primed_registered, primed_loadable, primed_result by exact Hc.
      apply Hok, Hn. }
    { exact Hbad. }
    unfold async_each. rewrite Hcoll, run_bind, Hrun. cbn [r_out r_state r_trace].
    exists s1, (EvReaddir p :: t), exn. auto.
Qed.

(** X7 — a setup does not roll back and does not report when it breaks
    off: if the fixtures worked on are some that load and report success,
    then one under whose name no model is registered, the fixtures before
    it have been inserted, none after it is started, the call ends in an
    exception and the callback is never invoked. *)
Theorem X7_setup_breaks_off (w : World) (sel : Select) (s : State)
    (pre : list string) (bad : string) (post : list string) :
  list_ready w s = true ->
  setup_names w s (selection_of sel) = pre ++ bad :: post ->
  (forall n, n ∈ pre ->
     registered s n = true /\ loadable w s n = true /\
     load_result w s n = None) ->
  registered s bad = false ->
  (exists exn, r_out (setupFixtures w sel s) = inl exn) /\
  created (r_trace (setupFixtures w sel s)) = pre /\
  callbacks (r_trace (setupFixtures w sel s)) = [].
Proof.
  intros Hready Hnames Hok Hbad. rewrite setupFixtures_unfold.
  destruct (loadFixtures_abort w _ setupCallback s pre bad post
              Hready Hnames Hok Hbad) as (s1 & t & exn & -> & Hc & Hcb).
  cbn [r_out r_trace]. eauto.
Qed.

Lemma X7_witness :
  (exists exn,
     r_out (setupFixtures two_fixtures (SelString "users,ghost,roles") started)
     = inl exn) /\
  created (r_trace (setupFixtures two_fixtures (SelString "users,ghost,roles")
                      started)) = ["users"] /\
  callbacks (r_trace (setupFixtures two_fixtures (SelString "users,ghost,roles")
                        started)) = [].
Proof.
  refine (X7_setup_breaks_off two_fixtures (SelString "users,ghost,roles") started
            ["users"] "ghost" ["roles"] eq_refl eq_refl _ eq_refl).
  intros n Hn.
  apply elem_of_cons in Hn as [->|Hn]; [repeat split; reflexivity|].
  inversion Hn.
Defined.

(** ** A first listing that fails *)

Lemma setup_without_list (w : World) (s : State) (cfg : Config) :
  is_Some (cachedFixtures s) ->
  fixtureNames s = None ->
  config s = Some cfg ->
  setupFixtures w SelAbsent s =
  mkRes s [EvCallback None (Some "setup complete")] (inr tt).
Proof.
  intros Hc Hn Hcfg. rewrite setupFixtures_unfold. cbn [selection_of fmap option_fmap option_map].
  rewrite loadFixtures_cached by exact Hc. rewrite Hn. reflexivity.
Qed.

(** X8 — when the fixtures directory cannot be listed at the first load,
    that call throws, with any selection, and leaves an empty cache
    object behind and no fixture list.  As the cache object exists, the
    directory is never listed again: whatever the host does next, every
    later no-selection setup inserts nothing and reports
    ["setup complete"]. *)
Theorem X8_failed_listing_is_final (w : World) (sel : Select) (s : State)
    (p : string) :
  cachedFixtures s = None ->
  fixtureNames s = None ->
  fixturePath s = Some p ->
  dirs w !! p = None ->
  setupFixtures w sel s =
    mkRes (set_cachedFixtures (Some ∅) s) [EvReaddir p] (inl (FsError p)) /\
  forall (ops : list (World * Op)) (w' : World) (cfg : Config),
    let later := (run_ops ops (r_state (setupFixtures w sel s))).1 in
    List.filter is_readdir (run_ops ops (r_state (setupFixtures w sel s))).2 = [] /\
    (config later = Some cfg ->
     setupFixtures w' SelAbsent later =
     mkRes later [EvCallback None (Some "setup complete")] (inr tt)).
Proof.
  intros Hc Hn Hp Hd.
  assert (Hrun : setupFixtures w sel s =
                 mkRes (set_cachedFixtures (Some ∅) s) [EvReaddir p]
                       (inl (FsError p))).
  { rewrite setupFixtures_unfold. unfold loadFixtures.
    rewrite run_get, Hc, run_bind, list_build_run, Hp, Hd. reflexivity. }
  split; [exact Hrun|]. rewrite Hrun. cbn [r_state].
  intros ops w' cfg. cbv zeta.
  destruct (fixture_list_kept None ops (set_cachedFixtures (Some ∅) s))
    as [[Hc' Hn'] Hrd].
  { cbn. eauto. }
  { exact Hn. }
  split; [apply filter_none, Hrd|].
  intros Hcfg. apply (setup_without_list w' _ cfg); assumption.
Qed.

Lemma X8_witness :
  setupFixtures
    (world_of [] []) (SelString "users")
    (set_fixturePath (Some "/nowhere/") started) =
  mkRes (set_cachedFixtures (Some ∅) (set_fixturePath (Some "/nowhere/") started))
        [EvReaddir "/nowhere/"] (inl (FsError "/nowhere/")) /\
  forall (ops : list (World * Op)) (w' : World) (cfg : Config),
    let later :=
      (run_ops ops
         (r_state (setupFixtures (world_of [] []) (SelString "users")
                     (set_fixturePath (Some "/nowhere/") started)))).1 in
    List.filter is_readdir
      (run_ops ops
         (r_state (setupFixtures (world_of [] []) (SelString "users")
                     (set_fixturePath (Some "/nowhere/") started)))).2 = [] /\
    (config later = Some cfg ->
     setupFixtures w' SelAbsent later =
     mkRes later [EvCallback None (Some "setup complete")] (inr tt)).
Proof.
  exact (X8_failed_listing_is_final (world_of [] []) (SelString "users")
           (set_fixturePath (Some "/nowhere/") started) "/nowhere/"
           eq_refl eq_refl eq_refl eq_refl).
Defined.

(** ** What the cache holds after a setup *)

Lemma setup_inv_loadable (w : World) (s0 s : State) (n : string) :
  setup_inv w s0 s -> loadable w s0 n = true -> loadable w s n = true.
Proof.
  intros Hinv Hload. pose proof (setup_inv_file w s0 s n Hinv) as Hf.
  destruct Hinv as (_ & _ & _ & _ & _ & Hr & c0 & c & Hc0 & Hc & Hcache).
  unfold loadable in *. rewrite Hf, Hr, Hc. rewrite Hc0 in Hload.
  cbn [default from_option id] in *.
  destruct (Hcache n) as [-> | [_ ->]]; [exact Hload|].
  rewrite bool_decide_true by (eexists; reflexivity).
  apply orb_true_r.
Qed.

Lemma setup_inv_registered (w : World) (s0 s : State) (n : string) :
  setup_inv w s0 s -> registered s n = registered s0 n.
Proof. intros (Hm & _). unfold registered. rewrite Hm. reflexivity. Qed.

(** After a run of loads, the cache holds for each fixture worked on the
    content that was handed to its model. *)
Lemma each_rest_load_cached (w : World) (s0 : State) (l : list string)
    (s : State) :
  setup_inv w s0 s ->
  (forall n, n ∈ l -> registered s0 n = true /\ loadable w s0 n = true) ->
  exists c1,
    cachedFixtures (r_state (each_rest (loadFixture w) l s)) = Some c1 /\
    forall n, n ∈ l -> cache_get c1 n = fixture_data w s0 n.
Proof.
  revert s0 s. induction l as [|n l IH]; intros s0 s Hinv Hok.
  - destruct Hinv as (_ & _ & _ & _ & _ & _ & c0 & c & _ & Hc & _).
    exists c. split; [exact Hc|]. intros n Hn. inversion Hn.
  - destruct (Hok n) as [Hreg Hload]; [left|].
    destruct (loadFixture_run w s0 s n Hinv Hreg Hload)
      as (s' & t & Hrun & Hinv' & _).
    assert (Hokl : forall m, m ∈ l ->
                     registered s0 m = true /\ loadable w s0 m = true).
    { intros m Hm. apply Hok. right; exact Hm. }
    assert (Hstep : each_rest (loadFixture w) (n :: l) s =
                    mkRes (r_state (each_rest (loadFixture w) l s'))
                          (t ++ r_trace (each_rest (loadFixture w) l s'))
                          (r_out (each_rest (loadFixture w) l s'))).
    { cbn [each_rest]. rewrite run_bind, Hrun. cbn [r_out r_state r_trace snd].
      rewrite bind_ret_l. reflexivity. }
    rewrite Hstep. cbn [r_state].
    destruct (IH s0 s' Hinv' Hokl) as (c1 & Hc1 & Hall).
    exists c1. split; [exact Hc1|].
    intros m Hm. apply elem_of_cons in Hm as [->|Hm]; [|apply Hall, Hm].
    (* the entry written for [n] is still there after the later loads *)
    destruct (each_rest_load w s' l s') as (s1 & t1 & Hrest & Hinv1 & _).
    { apply setup_inv_refl.
      destruct Hinv' as (_ & _ & _ & _ & _ & _ & c0 & c' & _ & Hc' & _).
      rewrite Hc'. eauto. }
    { intros m Hm. destruct (Hokl m Hm) as [Hr Hl]. split.
      - rewrite (setup_inv_registered w s0 s' m Hinv'). exact Hr.
      - apply (setup_inv_loadable w s0 s' m Hinv'), Hl. }
    rewrite Hrest in Hc1. cbn [r_state] in Hc1.
    pose proof (setup_inv_data w s' s1 n Hinv1) as Hd1.
    pose proof (setup_inv_data w s0 s' n Hinv') as Hd'.
    pose proof (setup_inv_data w s0 s n Hinv) as Hd.
    assert (Hload_s : loadable w s n = true)
      by (apply (setup_inv_loadable w s0 s n); assumption).
    pose proof (setup_inv_file w s' s1 n Hinv1) as Hf.
    assert (Hheld : exists c', cachedFixtures s' = Some c' /\
                               cache_get c' n = fixture_data w s0 n).
    { destruct Hinv as (_ & _ & _ & _ & _ & _ & c0 & c & _ & Hc & _).
      destruct (loadFixture_effect w s c n Hc Hload_s) as (Hst & _ & _).
      rewrite Hrun in Hst. cbn [r_state] in Hst. rewrite Hst, <- Hd.
      destruct (truthy (cache_get c n)) eqn:Ht.
      - exists c. split; [reflexivity|]. unfold fixture_data. rewrite Hc.
        cbn [default from_option id]. rewrite Ht. reflexivity.
      - exists (<[n := fixture_data w s n]> c). split; [reflexivity|].
        apply cache_get_insert. }
    destruct Hheld as (c' & Hc' & Hget).
    destruct Hinv1
      as (_ & _ & _ & _ & _ & Hr1 & c0' & c1' & Hc0' & Hc1' & Hcache).
    assert (c0' = c') by congruence. assert (c1' = c1) by congruence. subst.
    destruct (Hcache n) as [Heq | [Hfalsy Hres]]; [congruence|].
    rewrite <- Hd', <- Hd1. unfold fixture_data. rewrite Hc1, Hf, Hr1, Hres.
    cbn [default from_option id].
    destruct (truthy (cache_get c1 n)); reflexivity.
Qed.

Lemma loads_state (w : World) (s0 : State) (cfg : Config)
    (coll : option (list string)) (cb : option JsError -> M unit)
    (report : list Event) (s : State) :
  config s0 = Some cfg ->
  setup_inv w s0 s ->
  (forall n, n ∈ default [] coll ->
     registered s0 n = true /\ loadable w s0 n = true) ->
  (forall s', config s' = Some cfg ->
     cb (first_error (load_result w s0) (default [] coll)) s' =
     mkRes s' report (inr tt)) ->
  r_state (async_each coll (loadFixture w) cb s) =
  r_state (each_rest (loadFixture w) (default [] coll) s).
Proof.
  intros Hcfg Hinv Hok Hcb.
  destruct (each_rest_load w s0 _ s Hinv Hok) as (s1 & t & Hrest & _).
  destruct (each_run_load w s0 _ s Hinv Hok) as (s2 & t' & post & Hrun & Hinv2).
  destruct (async_each_decompose (loadFixture w) coll cb
              (fun _ => report) s) as (c & t1 & t2 & _ & _ & ->).
  - intros c Hc. rewrite Hrun in Hc. cbn [r_out] in Hc. injection Hc as <-.
    rewrite Hrun. cbn [r_state fst]. apply Hcb.
    destruct Hinv2 as (_ & -> & _). exact Hcfg.
  - rewrite Hrest. reflexivity.
  - reflexivity.
Qed.

Lemma load_start_cached (w : World) (s : State) :
  list_ready w s = true -> is_Some (cachedFixtures (load_start w s)).
Proof.
  unfold list_ready, load_start. destruct (cachedFixtures s) eqn:Hc.
  - rewrite Hc. eauto.
  - intros _. cbn. eauto.
Qed.

Lemma load_start_data (w : World) (s : State) (n : string) :
  fixture_data w (load_start w s) n = fixture_data w s n.
Proof.
  unfold load_start. destruct (cachedFixtures s) eqn:Hc; [reflexivity|].
  apply primed_data, Hc.
Qed.

Lemma load_start_ok (w : World) (s : State) (n : string) :
  registered (load_start w s) n = registered s n /\
  loadable w (load_start w s) n = loadable w s n /\
  load_result w (load_start w s) n = load_result w s n.
Proof.
  unfold load_start. destruct (cachedFixtures s) eqn:Hc; [auto|].
  split; [apply primed_registered|].
  split; [apply primed_loadable | apply primed_result]; exact Hc.
Qed.

Lemma loadFixtures_final_state (w : World) (fixtures : option (list string))
    (cb : option JsError -> M unit) (report : list Event) (s : State)
    (cfg : Config) :
  config s = Some cfg ->
  list_ready w s = true ->
  (forall n, n ∈ load_names w s fixtures ->
     registered s n = true /\ loadable w s n = true) ->
  (forall s', config s' = Some cfg ->
     cb (first_error (load_result w s) (load_names w s fixtures)) s' =
     mkRes s' report (inr tt)) ->
  r_state (loadFixtures w fixtures cb s) =
  r_state (each_rest (loadFixture w) (load_names w s fixtures) (load_start w s)).
Proof.
  intros Hcfg Hready Hok Hcb.
  pose proof (load_start_cached w s Hready) as Hstart.
  assert (Hload : r_state (loadFixtures w fixtures cb s) =
                  r_state (loadFixtures w fixtures cb (load_start w s))).
  { unfold load_start, list_ready in *.
    destruct (cachedFixtures s) as [c|] eqn:Hc; [reflexivity|].
    destruct (fixturePath s) as [p|] eqn:Hp; [|discriminate].
    apply bool_decide_eq_true in Hready. destruct Hready as [entries Hd].
    rewrite (loadFixtures_fresh w _ cb s p entries Hc Hp Hd). cbn [r_state].
    unfold names_in_force. rewrite Hc, Hp, Hd. reflexivity. }
  rewrite Hload, loadFixtures_cached by exact Hstart.
  assert (Hnames : default [] match fixtures with
                              | Some l => Some l
                              | None => fixtureNames (load_start w s)
                              end = load_names w s fixtures).
  { unfold load_names, load_start, names_in_force.
    destruct fixtures; [reflexivity|].
    destruct (cachedFixtures s); [reflexivity|].
    destruct (fixturePath s) as [p|]; [|reflexivity].
    destruct (dirs w !! p); reflexivity. }
  rewrite <- Hnames.
  apply (loads_state w (load_start w s) cfg _ cb report).
  - unfold load_start. destruct (cachedFixtures s); exact Hcfg.
  - apply setup_inv_refl, Hstart.
  - intros n Hn. rewrite Hnames in Hn.
    destruct (load_start_ok w s n) as (-> & -> & _). apply Hok, Hn.
  - rewrite Hnames.
    rewrite (first_error_ext (load_result w (load_start w s)) (load_result w s))
      by (intros x; apply load_start_ok).
    exact Hcb.
Qed.

(** X9 — when a setup completes, the cache holds, for every fixture it
    issued a bulk-create for, exactly the content it handed to the
    model. *)
Theorem X9_cache_holds_what_was_inserted (w : World) (sel : Select) (s : State)
    (cfg : Config) :
  config s = Some cfg ->
  list_ready w s = true ->
  (forall n, n ∈ setup_names w s (selection_of sel) ->
     registered s n = true /\ loadable w s n = true) ->
  exists c1,
    cachedFixtures (r_state (setupFixtures w sel s)) = Some c1 /\
    forall n d,
      EvCreate n d ∈ r_trace (setupFixtures w sel s) -> cache_get c1 n = d.
Proof.
  intros Hcfg Hready Hok.
  destruct (setup_exact w sel s cfg Hcfg Hready Hok)
    as (s1 & t1 & t2 & Hrun & Ht & _).
  assert (Hst : r_state (setupFixtures w sel s) =
                r_state (each_rest (loadFixture w)
                           (setup_names w s (selection_of sel)) (load_start w s))).
  { rewrite setupFixtures_unfold.
    apply (loadFixtures_final_state w _ setupCallback
             [setup_report cfg
                (first_error (load_result w s)
                   (setup_names w s (selection_of sel)))] s cfg Hcfg Hready Hok).
    intros s' Hcfg'. apply setupCallback_run, Hcfg'. }
  destruct (each_rest_load_cached w (load_start w s)
              (setup_names w s (selection_of sel)) (load_start w s))
    as (c1 & Hc1 & Hall).
  { apply setup_inv_refl, load_start_cached, Hready. }
  { intros n Hn. destruct (load_start_ok w s n) as (-> & -> & _). apply Hok, Hn. }
  exists c1. rewrite Hst. split; [exact Hc1|].
  intros n d Hin. rewrite Hrun in Hin. cbn [r_trace] in Hin.
  assert (Hin' : EvCreate n d ∈ without_requires (t1 ++ t2)).
  { unfold without_requires. apply list_elem_of_In, filter_In.
    split; [|reflexivity]. apply list_elem_of_In.
    apply elem_of_app in Hin as [Hin|Hin].
    - unfold listing_events in Hin.
      destruct (cachedFixtures s), (fixturePath s); try inversion Hin; subst;
        match goal with H : _ ∈ [] |- _ => inversion H end.
    - apply elem_of_app in Hin as [Hin|Hin]; [apply elem_of_app; auto|].
      apply elem_of_cons in Hin as [Heq|Hin]; [|apply elem_of_app; auto].
      unfold setup_report in Heq.
      destruct (first_error _ _); [destruct (errorOnSetupFailure cfg)|];
        discriminate Heq. }
  rewrite Ht in Hin'. apply list_elem_of_In, in_map_iff in Hin'.
  destruct Hin' as (m & Heq & Hm). unfold create_event in Heq.
  injection Heq as -> <-.
  rewrite (Hall n) by (apply list_elem_of_In, Hm). apply load_start_data.
Qed.

Lemma X9_witness :
  exists c1,
    cachedFixtures (r_state (setupFixtures two_fixtures SelAbsent started))
      = Some c1 /\
    forall n d,
      EvCreate n d ∈ r_trace (setupFixtures two_fixtures SelAbsent started) ->
      cache_get c1 n = d.
Proof.
  refine (X9_cache_holds_what_was_inserted two_fixtures SelAbsent started
            initial_defaults eq_refl eq_refl _).
  intros n Hn. vm_compute in Hn.
  apply elem_of_cons in Hn as [->|Hn]; [split; reflexivity|].
  apply elem_of_cons in Hn as [->|Hn]; [split; reflexivity|].
  inversion Hn.
Defined.

(** ** Initialisation and an explicit setup *)



(** ** The configuration after initialisation *)

Lemma setup_teardown_keep_config (w : World) (op : Op) (s : State) :
  is_init op = false ->
  models (r_state (run_op w op s)) = models s /\
  config (r_state (run_op w op s)) = config s /\
  defaults (r_state (run_op w op s)) = defaults s /\
  fixturePath (r_state (run_op w op s)) = fixturePath s.
Proof.
  intros Hop.
  set (Inv := fun s' : State =>
         models s' = models s /\ config s' = config s /\
         defaults s' = defaults s /\ fixturePath s' = fixturePath s).
  assert (Hinv : Inv s) by (repeat split).
  destruct op as [app options|sel|app sel]; [discriminate| |]; cbn [run_op].
  - apply (setupFixtures_keeps Inv (fun _ => True)); auto.
    intros s0 s1 (V1 & _ & V3 & _ & V5 & V6) (H1 & H2 & H3 & H4).
    unfold Inv. rewrite V1, V5, V6, V3. auto.
  - apply (teardownFixtures_keeps Inv (fun _ => True)); auto.
Qed.

(** X13 — the configuration is written by [init] only: over any
    sequence of setups and teardowns, with any selections and in any
    worlds, [models], [config], [defaults] and [fixturePath] stay as they
    are, also where an operation throws. *)
Theorem X13_only_init_writes_configuration (ops : list (World * Op)) (s : State) :
  forallb (fun wop => negb (is_init wop.2)) ops = true ->
  models (run_ops ops s).1 = models s /\
  config (run_ops ops s).1 = config s /\
  defaults (run_ops ops s).1 = defaults s /\
  fixturePath (run_ops ops s).1 = fixturePath s.
Proof.
  revert s. induction ops as [|[w op] ops IH]; intros s Hops.
  - repeat split.
  - cbn [forallb snd] in Hops. apply andb_true_iff in Hops as [Hop Hops].
    apply negb_true_iff in Hop.
    destruct (setup_teardown_keep_config w op s Hop) as (Hm & Hc & Hd & Hp).
    destruct (IH (r_state (run_op w op s)) Hops) as (Hm' & Hc' & Hd' & Hp').
    cbn [run_ops].
    destruct (run_ops ops (r_state (run_op w op s))) as [s2 t2].
    cbn [fst] in *. repeat split; congruence.
Qed.

Lemma X13_witness :
  models (run_ops [(ghost_world, OpSetup (SelString "ghost"));
                   (two_fixtures, OpTeardown two_models SelAbsent);
                   (two_fixtures, OpSetup SelAbsent)] strict).1 = models strict /\
  config (run_ops [(ghost_world, OpSetup (SelString "ghost"));
                   (two_fixtures, OpTeardown two_models SelAbsent);
                   (two_fixtures, OpSetup SelAbsent)] strict).1 = config strict /\
  defaults (run_ops [(ghost_world, OpSetup (SelString "ghost"));
                     (two_fixtures, OpTeardown two_models SelAbsent);
                     (two_fixtures, OpSetup SelAbsent)] strict).1 = defaults strict /\
  fixturePath (run_ops [(ghost_world, OpSetup (SelString "ghost"));
                        (two_fixtures, OpTeardown two_models SelAbsent);
                        (two_fixtures, OpSetup SelAbsent)] strict).1
    = fixturePath strict.
Proof.
  exact (X13_only_init_writes_configuration
           [(ghost_world, OpSetup (SelString "ghost"));
            (two_fixtures, OpTeardown two_models SelAbsent);
            (two_fixtures, OpSetup SelAbsent)] strict eq_refl).
Defined.

(** ** Content the truthiness test does not see *)

Lemma loadFixture_requires (w : World) (s : State) (c : gmap string JsVal)
    (n : string) :
  cachedFixtures s = Some c ->
  truthy (cache_get c n) = false ->
  required (r_trace (loadFixture w n s)) = [n].
Proof.
  intros Hc Ht. unfold loadFixture. rewrite run_get, Hc, Ht.
  destruct (addToCache_run w n s c Hc) as (s1 & (V1 & _) & _ & Hadd).
  rewrite run_bind.
  destruct (resolve w s (fixtureFile s n)) as [d|].
  - rewrite Hadd. cbn [r_out r_state r_trace]. rewrite run_get.
    cbn [set_cachedFixtures models r_trace]. rewrite V1.
    destruct (models s) as [ms|]; [|reflexivity].
    destruct (ms !! n); reflexivity.
  - destruct Hadd as [e ->]. reflexivity.
Qed.

(** What [require] has returned for a request it returns again, in
    whatever state the file system then is. *)
Lemma require_remembered (w : World) (request : string) (s : State)
    (d : JsVal) :
  resolve w s request = Some d ->
  forall w', resolve w' (r_state (require w request s)) request = Some d.
Proof.
  unfold require, resolveFilename, loadModule, resolve.
  intros Hres w'. rewrite bind_assoc, run_get.
  destruct (pathCache s !! request) as [f|] eqn:Hp.
  - rewrite bind_ret_l, run_get.
    destruct (moduleCache s !! f) as [v|] eqn:Hm.
    + cbn [r_state M_ret mret]. rewrite Hp, Hm. exact Hres.
    + destruct (files w !! f) as [[v|]|]; try discriminate.
      rewrite run_modify.
      cbn [r_state M_ret mret set_moduleCache pathCache moduleCache].
      rewrite Hp, lookup_insert_eq. exact Hres.
  - destruct (findPath w request) as [f|]; [|discriminate].
    rewrite bind_assoc, run_modify, bind_ret_l, run_get.
    cbn [set_pathCache pathCache moduleCache].
    destruct (moduleCache s !! f) as [v|] eqn:Hm.
    + cbn [r_state M_ret mret set_pathCache pathCache moduleCache].
      rewrite lookup_insert_eq, Hm. exact Hres.
    + destruct (files w !! f) as [[v|]|]; try discriminate.
      rewrite run_modify.
      cbn [r_state M_ret mret set_pathCache set_moduleCache pathCache
           moduleCache].
      rewrite !lookup_insert_eq. exact Hres.
Qed.

(** A load that finds nothing truthy in the cache, in full. *)
Lemma loadFixture_miss (w : World) (s : State) (c : gmap string JsVal)
    (n : string) (d : JsVal) :
  cachedFixtures s = Some c ->
  truthy (cache_get c n) = false ->
  resolve w s (fixtureFile s n) = Some d ->
  exists s',
    same_variables s s' /\
    (forall w', resolve w' s' (fixtureFile s n) = Some d) /\
    r_state (loadFixture w n s) = set_cachedFixtures (Some (<[n := d]> c)) s'.
Proof.
  intros Hc Ht Hres.
  pose proof (require_remembered w (fixtureFile s n) s d Hres) as Hmem.
  destruct (require_run w (fixtureFile s n) s) as (s' & Hv & _ & Hrun).
  rewrite Hres in Hrun. rewrite Hrun in Hmem. cbn [r_state] in Hmem.
  exists s'. split; [exact Hv|]. split; [exact Hmem|].
  unfold loadFixture. rewrite run_get, Hc, Ht.
  unfold addToCache. rewrite !bind_assoc, run_get, !bind_assoc, run_emit.
  cbn [r_state]. rewrite bind_assoc, run_bind, Hrun.
  cbn [r_out r_state r_trace]. rewrite Hc, run_modify, run_get.
  cbn [set_cachedFixtures models].
  destruct (models s') as [ms|]; [|reflexivity].
  destruct (ms !! n); reflexivity.
Qed.

(** X14 — the cache is consulted with a truthiness test, so content that
    is falsy (null, false, zero, the empty string) is stored but never
    served from it: after a load that cached such content, the next load
    of the same fixture calls [require] again, where content that is
    truthy is served from the cache.  That second [require] is answered
    by Node from its module cache: the load hands the model the value the
    first one got, whatever the file holds by then. *)
Theorem X14_falsy_content_is_required_again (w : World) (s : State)
    (c : gmap string JsVal) (n : string) (d : JsVal) :
  cachedFixtures s = Some c ->
  truthy (cache_get c n) = false ->
  resolve w s (fixtureFile s n) = Some d ->
  required (r_trace (loadFixture w n s)) = [n] /\
  (exists c', cachedFixtures (r_state (loadFixture w n s)) = Some c' /\
              c' !! n = Some d) /\
  forall w',
    required (r_trace (loadFixture w' n (r_state (loadFixture w n s)))) =
      (if truthy d then [] else [n]) /\
    fixture_data w' (r_state (loadFixture w n s)) n = d.
Proof.
  intros Hc Ht Hres.
  destruct (loadFixture_miss w s c n d Hc Ht Hres)
    as (s' & (_ & _ & Hp & _) & Hmem & ->).
  split; [apply (loadFixture_requires w s c n Hc Ht)|].
  split.
  - exists (<[n:=d]> c). split; [reflexivity | apply lookup_insert_eq].
  - intros w'.
    set (s1 := set_cachedFixtures (Some (<[n:=d]> c)) s').
    assert (Hfile : fixtureFile s1 n = fixtureFile s n).
    { unfold fixtureFile, s1. cbn [set_cachedFixtures fixturePath].
      rewrite Hp. reflexivity. }
    assert (Hdata : fixture_data w' s1 n = d).
    { unfold fixture_data. rewrite Hfile.
      cbn [s1 set_cachedFixtures cachedFixtures default from_option id].
      rewrite cache_get_insert.
      change (resolve w' s1 (fixtureFile s n))
        with (resolve w' s' (fixtureFile s n)).
      rewrite Hmem. cbn [default from_option id].
      destruct (truthy d); reflexivity. }
    split; [|exact Hdata].
    destruct (truthy d) eqn:Hd.
    + assert (Hload' : loadable w' s1 n = true).
      { unfold loadable.
        cbn [s1 set_cachedFixtures cachedFixtures default from_option id].
        rewrite cache_get_insert, Hd. reflexivity. }
      destruct (loadFixture_effect w' s1 (<[n:=d]> c) n eq_refl Hload')
        as (_ & _ & Htr).
      rewrite Htr, cache_get_insert, Hd. cbn [List.app].
      destruct (registered _ n); reflexivity.
    + apply (loadFixture_requires w' s1 (<[n:=d]> c) n eq_refl).
      rewrite cache_get_insert. exact Hd.
Qed.

(** A file that exported [null] when it was first required, and holds
    records by the time of the second load: the second load calls
    [require] again and is handed [null] again. *)
Lemma X14_witness :
  required (r_trace (loadFixture
                       (world_of ["users.json"] [("users.json", VNull)]) "users"
                       (primed ["users"] started))) = ["users"] /\
  (exists c',
     cachedFixtures
       (r_state (loadFixture
                   (world_of ["users.json"] [("users.json", VNull)]) "users"
                   (primed ["users"] started))) = Some c' /\
     c' !! "users" = Some VNull) /\
  required
    (r_trace (loadFixture one_fixture "users"
                (r_state (loadFixture
                            (world_of ["users.json"] [("users.json", VNull)])
                            "users" (primed ["users"] started))))) = ["users"] /\
  fixture_data one_fixture
    (r_state (loadFixture
                (world_of ["users.json"] [("users.json", VNull)])
                "users" (primed ["users"] started))) "users" = VNull.
Proof.
  destruct (X14_falsy_content_is_required_again
              (world_of ["users.json"] [("users.json", VNull)])
              (primed ["users"] started) ∅ "users" VNull
              eq_refl eq_refl eq_refl) as (H1 & H2 & H3).
  split; [exact H1|]. split; [exact H2|]. exact (H3 one_fixture).
Defined.
